(** * Graph grouper: dominator table and dominance-guided region selection

    A shallow embedding of [graph_grouper.cpp]: the [bitsett] bit vector,
    the [DominatorInfo] constructor with its fixed-point loop, the
    [dominates_node] query, [search_comment], [is_end_node], the
    recursive [add_nodes] traversal, [getGroupText] and [run], followed
    by the properties of these functions.

    Conventions.
    - Node ids are the non-negative [int]s the graph interface hands out;
      they are modelled as [nat].
    - [std::vector::at] is bounds-checked and throws [std::out_of_range];
      [std::vector::operator[]] is unchecked.  Both are modelled as
      fallible, with distinct faults, so that an access outside a vector
      is never silently given a value.
    - The [do ... while (changed)] loop and the recursion of [add_nodes]
      take a fuel argument; running out of it is the fault [no_fuel].
    - The functions of the host ([mutable_graph_t], [get_cmt],
      [ask_text], the viewer) are parameters; [NULL] and [-1] results
      are [None]. *)

From Stdlib Require Import String.
From stdpp Require Import base decidable option numbers list.

Local Open Scope nat_scope.

(** ** Outcomes of fallible code *)

Inductive fault : Type :=
  | out_of_range    (* thrown by std::vector::at *)
  | bad_subscript   (* operator[] outside the vector *)
  | no_fuel.        (* the model ran out of fuel *)

Inductive outcome (A : Type) : Type :=
  | Done (a : A)
  | Stop (f : fault).

Arguments Done {A} a.
Arguments Stop {A} f.

#[global] Instance outcome_ret : MRet outcome := λ A a, Done a.
#[global] Instance outcome_bind : MBind outcome := λ A B k m,
  match m with
  | Done a => k a
  | Stop f => Stop f
  end.

#[global] Instance fault_eq_dec : EqDecision fault.
Proof. solve_decision. Defined.

(** A [for] loop whose induction variable runs through [range]. *)
Fixpoint for_each {St : Type} (range : list nat) (body : nat → St → outcome St)
    (s : St) : outcome St :=
  match range with
  | [] => Done s
  | i :: rest => s' ← body i s; for_each rest body s'
  end.

(** ** std::vector accessors *)

Section Vector.
Context {A : Type}.

(** [v.at(i)] as an rvalue. *)
Definition at_ (v : list A) (i : nat) : outcome A :=
  match v !! i with
  | Some x => Done x
  | None => Stop out_of_range
  end.

(** [v.at(i) = x]. *)
Definition at_put (v : list A) (i : nat) (x : A) : outcome (list A) :=
  if decide (i < length v) then Done (<[i:=x]> v) else Stop out_of_range.

(** [v[i]] as an rvalue. *)
Definition subscript (v : list A) (i : nat) : outcome A :=
  match v !! i with
  | Some x => Done x
  | None => Stop bad_subscript
  end.

(** [v[i] = x], or an in-place update of [v[i]]. *)
Definition store (v : list A) (i : nat) (x : A) : outcome (list A) :=
  if decide (i < length v) then Done (<[i:=x]> v) else Stop bad_subscript.
End Vector.

(** ** class bitsett : public std::vector<bool> *)

Abbreviation bitsett := (list bool).

(** One iteration of the loop of [operator|=]:
    [if (at(i) == false && rhs.at(i) == true) at(i) = true;] *)
Definition or_body (rhs : bitsett) (i : nat) (self : bitsett) : outcome bitsett :=
  a ← at_ self i;
  if negb a then
    b ← at_ rhs i;
    if (b : bool) then at_put self i true else Done self
  else Done self.

(** [operator|=].  When [rhs] is the very object [self] the loop changes
    nothing, as here: index [i] of either is read before it is written. *)
Definition bor (self rhs : bitsett) : outcome bitsett :=
  for_each (seq 0 (length self)) (or_body rhs) self.

(** One iteration of the loop of [operator&=]:
    [if (at(i) == true && rhs.at(i) == false) at(i) = false;] *)
Definition and_body (rhs : bitsett) (i : nat) (self : bitsett) : outcome bitsett :=
  a ← at_ self i;
  if (a : bool) then
    b ← at_ rhs i;
    if negb b then at_put self i false else Done self
  else Done self.

(** [operator&=]. *)
Definition band (self rhs : bitsett) : outcome bitsett :=
  for_each (seq 0 (length self)) (and_body rhs) self.

(** [set(void)]: [s = size(); clear(); assign(s, true)]. *)
Definition set_all (self : bitsett) : bitsett :=
  replicate (length self) true.

(** [set(int n)]: [at(n) = true]. *)
Definition set_bit (self : bitsett) (n : nat) : outcome bitsett :=
  at_put self n true.

(** [reset(void)]: [s = size(); clear(); assign(s, false)]. *)
Definition reset (self : bitsett) : bitsett :=
  replicate (length self) false.

(** [test(int n)]: [return at(n)]. *)
Definition test (self : bitsett) (n : nat) : outcome bool :=
  at_ self n.

(** [operator!=] inherited from [std::vector<bool>]. *)
Definition bitsett_ne (a b : bitsett) : bool := bool_decide (a ≠ b).

(** ** The host's graph and comment database *)

Definition ea_t : Type := N.

(** The part of [mutable_graph_t] that the plugin calls. *)
Record mutable_graph_t : Type := {
  size : nat;
  entry : nat;
  npred : nat → nat;
  pred : nat → nat → nat;
  nsucc : nat → nat;
  succ : nat → nat → nat;
  calc_group_ea : list nat → ea_t
}.

(** Modelled from the spec: the node iterator [graph->begin()] ..
    [graph->end()] belongs to the host; the nodes of a graph are the ids
    [0 .. size-1], visited in increasing order. *)
Definition graph_nodes (graph : mutable_graph_t) : list nat :=
  seq 0 (size graph).

(** The predecessors [pred(node, 0) .. pred(node, npred(node)-1)]. *)
Definition preds (graph : mutable_graph_t) (node : nat) : list nat :=
  map (pred graph node) (seq 0 (npred graph node)).

(** The successors [succ(node, 0) .. succ(node, nsucc(node)-1)]. *)
Definition succs (graph : mutable_graph_t) (node : nat) : list nat :=
  map (succ graph node) (seq 0 (nsucc graph node)).

(** ** class DominatorInfo *)

Abbreviation doms_t := (list bitsett).

(** Body of the first loop of the constructor:
    [doms[node].resize(numNodes); doms[node].set();] *)
Definition init_body (numNodes : nat) (node : nat) (doms : doms_t) : outcome doms_t :=
  b ← subscript doms node;
  store doms node (set_all (resize numNodes false b)).

(** The constructor up to the [do] loop: the table and the scratch set [t]. *)
Definition init_doms (graph : mutable_graph_t) : outcome (doms_t * bitsett) :=
  let numNodes := size graph in
  let doms := resize numNodes [] [] in
  doms ← for_each (graph_nodes graph) (init_body numNodes) doms;
  b ← subscript doms (entry graph);
  doms ← store doms (entry graph) (reset b);
  b ← subscript doms (entry graph);
  b ← set_bit b (entry graph);
  doms ← store doms (entry graph) b;
  let t := reset (resize numNodes false []) in
  Done (doms, t).

(** The state of the fixed-point loop: [doms], [t] and [changed]. *)
Abbreviation loop_state := (doms_t * bitsett * bool)%type.

(** Body of the loop over the predecessors of [node], for predecessor
    number [p]. *)
Definition pred_body (graph : mutable_graph_t) (node : nat) (p : nat)
    (st : loop_state) : outcome loop_state :=
  let '(doms, t, changed) := st in
  let pred_ := pred graph node p in
  let t := reset t in
  dn ← subscript doms node;
  t ← bor t dn;
  dp ← subscript doms pred_;
  dn ← band dn dp;
  doms ← store doms node dn;
  dn ← subscript doms node;
  dn ← set_bit dn node;
  doms ← store doms node dn;
  dn ← subscript doms node;
  Done (doms, t, if bitsett_ne dn t then true else changed).

(** Body of the loop over the nodes. *)
Definition node_body (graph : mutable_graph_t) (node : nat)
    (st : loop_state) : outcome loop_state :=
  if decide (node = entry graph) then Done st
  else for_each (seq 0 (npred graph node)) (pred_body graph node) st.

(** One execution of the body of [do ... while (changed)]. *)
Definition pass (graph : mutable_graph_t) (doms : doms_t) (t : bitsett)
  : outcome loop_state :=
  for_each (graph_nodes graph) (node_body graph) (doms, t, false).

(** [do { ... } while (changed);] *)
Fixpoint do_while (fuel : nat) (graph : mutable_graph_t) (doms : doms_t)
    (t : bitsett) : outcome doms_t :=
  match fuel with
  | 0 => Stop no_fuel
  | S fuel' =>
      st ← pass graph doms t;
      let '(doms, t, changed) := (st : loop_state) in
      if changed then do_while fuel' graph doms t else Done doms
  end.

(** [DominatorInfo::DominatorInfo(mutable_graph_t *graph)]. *)
Definition DominatorInfo (fuel : nat) (graph : mutable_graph_t) : outcome doms_t :=
  st ← init_doms graph;
  do_while fuel graph st.1 st.2.

(** [DominatorInfo::dominates_node]: [return doms[node2].test(node);] *)
Definition dominates_node (doms : doms_t) (node node2 : nat) : outcome bool :=
  b ← subscript doms node2;
  test b node.

(** ** Boundary nodes *)

(** The comments of the database: [get_cmt(&cmt, ea, repeatable)] gives
    [-1] where there is no comment. *)
Definition comments : Type := ea_t → bool → option string.

(** [strstr(haystack, needle) != NULL]. *)
Definition strstr (haystack needle : string) : bool :=
  match String.index 0 needle haystack with
  | Some _ => true
  | None => false
  end.

Definition search_comment (db : comments) (ea : ea_t) (searchString : string) : bool :=
  match db ea false with
  | None => false
  | Some cmt => if strstr cmt searchString then true else false
  end.

Definition is_end_node (db : comments) (graph : mutable_graph_t) (node : nat) : bool :=
  let nodes := [] ++ [node] in
  let groupEa := calc_group_ea graph nodes in
  search_comment db groupEa "GG:stop".

(** ** add_nodes *)

(** [intvec_t::has]. *)
Definition has (nodes : list nat) (n : nat) : bool := bool_decide (n ∈ nodes).

Section AddNodes.
Variable db : comments.
Variable graph : mutable_graph_t.
Variable d : doms_t.
Variable startNode : nat.

(** The loop over the successors of [node]; [call] is the recursive
    call of [add_nodes]. *)
Definition succ_body (call : list nat → nat → outcome (list nat))
    (node : nat) (s : nat) (nodes : list nat) : outcome (list nat) :=
  let succ_ := succ graph node s in
  if negb (has nodes succ_) then
    dom ← dominates_node d startNode succ_;
    if (dom : bool) then call nodes succ_ else Done nodes
  else Done nodes.

Fixpoint add_nodes (fuel : nat) (nodes : list nat) (node : nat)
  : outcome (list nat) :=
  match fuel with
  | 0 => Stop no_fuel
  | S fuel' =>
      if is_end_node db graph node then Done nodes
      else
        let nodes := nodes ++ [node] in
        for_each (seq 0 (nsucc graph node))
                 (succ_body (add_nodes fuel') node) nodes
  end.

(** [add_nodes] again, with a ghost log of the nodes [is_end_node] was
    asked about, in the order of the calls. *)
Definition succ_body_log
    (call : list nat * list nat → nat → outcome (list nat * list nat))
    (node : nat) (s : nat) (st : list nat * list nat)
  : outcome (list nat * list nat) :=
  let succ_ := succ graph node s in
  if negb (has st.1 succ_) then
    dom ← dominates_node d startNode succ_;
    if (dom : bool) then call st succ_ else Done st
  else Done st.

Fixpoint add_nodes_log (fuel : nat) (st : list nat * list nat) (node : nat)
  : outcome (list nat * list nat) :=
  match fuel with
  | 0 => Stop no_fuel
  | S fuel' =>
      let queries := st.2 ++ [node] in
      if is_end_node db graph node then Done (st.1, queries)
      else
        let nodes := st.1 ++ [node] in
        for_each (seq 0 (nsucc graph node))
                 (succ_body_log (add_nodes_log fuel') node) (nodes, queries)
  end.
End AddNodes.

(** The region computed by [run]: [add_nodes(graph, &dominatorInfo,
    nodeSet, startNode, startNode)] on an empty [nodeSet]. *)
Definition select (fuel : nat) (db : comments) (graph : mutable_graph_t)
    (d : doms_t) (startNode : nat) : outcome (list nat) :=
  add_nodes db graph d startNode fuel [] startNode.

(** [select] with the log of the boundary queries. *)
Definition select_log (fuel : nat) (db : comments) (graph : mutable_graph_t)
    (d : doms_t) (startNode : nat) : outcome (list nat * list nat) :=
  add_nodes_log db graph d startNode fuel ([], []) startNode.

(** ** getGroupText and run *)

(** [ask_text(&textBuffer, 2048, defval, format)] of the host: [None]
    when it returns [false], else the text it left in the buffer. *)
Definition ask_text_t : Type := string → string → option string.

Definition getGroupText (db : comments) (ask_text : ask_text_t)
    (g : mutable_graph_t) (selectedNode : nat) : string :=
  let node_set := [] ++ [selectedNode] in
  let nodeAddr := calc_group_ea g node_set in
  let nodeComment :=
    match db nodeAddr false with
    | Some cmt => Some cmt
    | None => db nodeAddr true
    end in
  match nodeComment with
  | None =>
      match ask_text "group text"%string "Please enter group text"%string with
      | None => ""%string
      | Some textBuffer => textBuffer
      end
  | Some nodeComment =>
      match ask_text nodeComment "Please enter group text"%string with
      | None => ""%string
      | Some textBuffer => textBuffer
      end
  end.

(** A graph viewer: [get_viewer_graph], [NULL] being [None], and
    [viewer_get_curnode], [-1] being [None]. *)
Record graph_viewer_t : Type := {
  viewer_graph : option mutable_graph_t;
  viewer_curnode : option nat
}.

(** The host as [run] finds it: [get_current_viewer()], [NULL] being
    [None], the comments and the text prompt. *)
Record host_t : Type := {
  current_viewer : option graph_viewer_t;
  host_comments : comments;
  host_ask_text : ask_text_t
}.

(** What [run] does to the host: its messages and the groups it
    creates. *)
Inductive event : Type :=
  | msg_viewer_null
  | msg_graph_null
  | msg_graph_size (graph_size : nat) (cur_node : option nat)
  | warning_select_node
  | msg_cancelling
  | viewer_create_groups (nodes : list nat) (text : string).

(** [run]: its return value and its events.  The test
    [if (startNode >= 0)] holds of every node id and has no branch of
    its own. *)
Definition run (fuel : nat) (host : host_t) : outcome (bool * list event) :=
  match current_viewer host with
  | None => Done (false, [msg_viewer_null])
  | Some graphViewer =>
      match viewer_graph graphViewer with
      | None => Done (false, [msg_graph_null])
      | Some graph =>
          dominatorInfo ← DominatorInfo fuel graph;
          let log := [msg_graph_size (size graph) (viewer_curnode graphViewer)] in
          match viewer_curnode graphViewer with
          | None => Done (false, log ++ [warning_select_node])
          | Some startNode =>
              let groupText :=
                getGroupText (host_comments host) (host_ask_text host)
                             graph startNode in
              if String.length groupText =? 0
              then Done (false, log ++ [msg_cancelling])
              else
                nodeSet ← add_nodes (host_comments host) graph dominatorInfo
                                    startNode fuel [] startNode;
                Done (true, log ++ [viewer_create_groups nodeSet groupText])
          end
      end
  end.

(** [run] has created a group. *)
Definition creates_group (log : list event) : Prop :=
  ∃ nodes text, viewer_create_groups nodes text ∈ log.

(** ** Well-formed graphs *)

(** The entry node and every predecessor and successor of a node are
    nodes of the graph. *)
Definition graph_ok (graph : mutable_graph_t) : Prop :=
  entry graph < size graph ∧
  Forall (λ node,
            Forall (λ p, p < size graph) (preds graph node) ∧
            Forall (λ s, s < size graph) (succs graph node))
         (graph_nodes graph).

#[global] Instance graph_ok_dec graph : Decision (graph_ok graph).
Proof. unfold graph_ok. apply _. Defined.

(** A table of [n] dominator sets of [n] bits each, every node in its
    own set. *)
Definition table_ok (n : nat) (doms : doms_t) : Prop :=
  length doms = n ∧
  ∀ node row, doms !! node = Some row → length row = n ∧ row !! node = Some true.

(** Bit [i] of the dominator set of node [n] is set. *)
Definition bit (doms : doms_t) (n i : nat) : Prop :=
  ∃ row, doms !! n = Some row ∧ row !! i = Some true.

(** Number of set bits of a set, and of a table. *)
Definition popcount (b : bitsett) : nat := sum_list_with Nat.b2n b.
Definition weight (doms : doms_t) : nat := sum_list_with popcount doms.

(** [n] can be reached from the entry node along successor edges. *)
Inductive reachable (graph : mutable_graph_t) : nat → Prop :=
  | reachable_entry : reachable graph (entry graph)
  | reachable_succ u v :
      reachable graph u → v ∈ succs graph u → reachable graph v.

(** ** The tables of the fixed-point loop *)

(** The table as the loop finds it: every set full, the set of the entry
    node reduced to the entry node. *)
Definition init_table (graph : mutable_graph_t) : doms_t :=
  let n := size graph in
  <[entry graph := <[entry graph := true]> (replicate n false)]>
    (replicate n (replicate n true)).

(** [doms[node] &= doms[pred]; doms[node].set(node)] on the rows [dn] of
    [node] and [dp] of [pred]. *)
Definition updated (node : nat) (dn dp : bitsett) : bitsett :=
  <[node := true]> (zip_with andb dn dp).

(** The tables the loop can reach from [d0]: a sequence of updates of
    non-entry nodes by one of their predecessors. *)
Inductive updates (graph : mutable_graph_t) (d0 : doms_t) : doms_t → Prop :=
  | updates_refl : updates graph d0 d0
  | updates_step d node p dn dp :
      updates graph d0 d →
      node ≠ entry graph → p < npred graph node →
      d !! node = Some dn → d !! pred graph node p = Some dp →
      updates graph d0 (<[node := updated node dn dp]> d).

(** What one pass establishes, starting from the table [d0]. *)
Definition pass_post (graph : mutable_graph_t) (d0 : doms_t) (st : loop_state)
  : Prop :=
  updates graph d0 st.1.1 ∧ length st.1.2 = size graph ∧
  (st.2 = true → weight st.1.1 < weight d0).

(** The only fault of the loop is a predecessor outside the table. *)
Definition pass_fault (graph : mutable_graph_t) (f : fault) : Prop :=
  f = bad_subscript ∧ ¬ graph_ok graph.

(** ** The region, as a set *)

Section RegionSpec.
Variable db : comments.
Variable graph : mutable_graph_t.
Variable d : doms_t.
Variable startNode : nat.

(** A successor that the traversal takes into the region when it meets
    it for the first time. *)
Definition admits (v : nat) : Prop :=
  dominates_node d startNode v = Done true ∧ is_end_node db graph v = false.

(** The region: the start node unless it is a boundary node, and what
    can be reached from it through admitted successors. *)
Inductive region : nat → Prop :=
  | region_start : is_end_node db graph startNode = false → region startNode
  | region_succ u v :
      region u → v ∈ succs graph u → admits v → region v.

(** Successor [v] has been dealt with, given the nodes [cur] found so
    far: it is among them, or it is not dominated by the start node, or
    it is a dominated boundary node. *)
Definition settled (cur : list nat) (v : nat) : Prop :=
  v ∈ cur ∨ dominates_node d startNode v = Done false ∨
  (dominates_node d startNode v = Done true ∧ is_end_node db graph v = true).

(** The queries that were answered [false]. *)
Definition passed (queries : list nat) : list nat :=
  filter (λ n, is_end_node db graph n = false) queries.
End RegionSpec.

(** ** Paths and dominators *)

(** [path_to graph n l]: [l] lists the nodes of a walk from the entry
    node to [n] along the edges [pred(m, p) → m], the last node first. *)
Inductive path_to (graph : mutable_graph_t) : nat → list nat → Prop :=
  | path_entry : path_to graph (entry graph) [entry graph]
  | path_step n p l :
      path_to graph (pred graph n p) l → p < npred graph n →
      path_to graph n (n :: l).

(** [a] lies on every walk from the entry node to [n]. *)
Definition dominator (graph : mutable_graph_t) (a n : nat) : Prop :=
  ∀ l, path_to graph n l → a ∈ l.

(** The update of [node] by its predecessor number [p] leaves [d] as it
    is. *)
Definition stable (graph : mutable_graph_t) (d : doms_t) (node p : nat) : Prop :=
  ∃ dn dp, d !! node = Some dn ∧ d !! pred graph node p = Some dp ∧
           updated node dn dp = dn.

(** No update of the loop changes [d]. *)
Definition fixed (graph : mutable_graph_t) (d : doms_t) : Prop :=
  ∀ node p, node < size graph → node ≠ entry graph → p < npred graph node →
            stable graph d node p.

(** What a pass that has not set [changed] has established when it is
    about to run predecessor number [j] of node [k]. *)
Definition pass_quiet (graph : mutable_graph_t) (d0 : doms_t) (k j : nat)
    (st : loop_state) : Prop :=
  st.2 = false →
  st.1.1 = d0 ∧
  (∀ node p, node < k → node ≠ entry graph → p < npred graph node →
             stable graph d0 node p) ∧
  (∀ p, p < j → k ≠ entry graph → stable graph d0 k p).

(** ** Example graphs *)

(** A graph given by its successor lists; predecessors are derived, in
    increasing order of the source node.  Node [n] starts at address
    [16 * n]. *)
Definition graph_of (succ_lists : list (list nat)) : mutable_graph_t :=
  let n := length succ_lists in
  let pl node := filter (λ u, bool_decide (node ∈ succ_lists !!! u)) (seq 0 n) in
  {| size := n;
     entry := 0;
     npred node := length (pl node);
     pred node p := pl node !!! p;
     nsucc node := length (succ_lists !!! node);
     succ node s := (succ_lists !!! node) !!! s;
     calc_group_ea nodes := N.of_nat (16 * foldr min (hd 0 nodes) nodes) |}.

Definition no_comments : comments := λ _ _, None.

(** The comment ["GG:stop"] on the first address of each node of [stops]. *)
Definition stop_at (stops : list nat) : comments := λ ea repeatable,
  if bool_decide (ea ∈ map (λ n, N.of_nat (16 * n)) stops) && negb repeatable
  then Some "; GG:stop here"%string else None.

Definition chain : mutable_graph_t := graph_of [[1]; [2]; [3]; []].
Definition diamond : mutable_graph_t := graph_of [[1; 2]; [3]; [3]; []].

(** The diamond with the successors of node [0] in the other order. *)
Definition diamond' : mutable_graph_t := graph_of [[2; 1]; [3]; [3]; []].

(** An unreachable node: [2] has no predecessor and is not the entry. *)
Definition stray : mutable_graph_t := graph_of [[1]; []; [1]].

(** The table the constructor builds for [diamond]. *)
Definition diamond_table : doms_t :=
  [[true; false; false; false]; [true; true; false; false];
   [true; false; true; false]; [true; false; false; true]].


(** A host showing [diamond] with node [1] selected, the stop comment on
    node [3], whose user answers the prompt with ["loop"]. *)
Definition diamond_host : host_t :=
  {| current_viewer :=
       Some {| viewer_graph := Some diamond; viewer_curnode := Some 1 |};
     host_comments := stop_at [3];
     host_ask_text := λ defval format, Some "loop"%string |}.

(** The same host with a user who cancels the prompt. *)
Definition cancelling_host : host_t :=
  {| current_viewer := current_viewer diamond_host;
     host_comments := stop_at [3];
     host_ask_text := λ defval format, None |}.

(** A host showing a graph without nodes, no node being selected. *)
Definition empty_host : host_t :=
  {| current_viewer :=
       Some {| viewer_graph := Some (graph_of []); viewer_curnode := None |};
     host_comments := no_comments;
     host_ask_text := λ defval format, None |}.

(** A self-loop on node [1]: [0 → 1], [1 → 1], [1 → 2]. *)
Definition self_loop : mutable_graph_t := graph_of [[1]; [1; 2]; []].

(** * Properties *)

(** ** Outcomes and loops *)

Lemma bind_Done {A B} (m : outcome A) (k : A → outcome B) b :
  m ≫= k = Done b ↔ ∃ a, m = Done a ∧ k a = Done b.
Proof.
  destruct m as [a|f]; simpl; split.
  - eauto.
  - by intros (? & [= ->] & ?).
  - done.
  - by intros (? & ? & ?).
Qed.

Lemma for_each_app {St} l1 l2 (body : nat → St → outcome St) s :
  for_each (l1 ++ l2) body s = for_each l1 body s ≫= for_each l2 body.
Proof.
  revert s. induction l1 as [|i l1 IH]; intros s; simpl; [done|].
  destruct (body i s); simpl; auto.
Qed.

(** Hoare rule of a counting loop: [P k] holds before iteration [k], a
    fault of the body satisfies [F]. *)
Lemma for_each_seq {St} (P : nat → St → Prop) (F : fault → Prop)
    (body : nat → St → outcome St) a n s :
  P a s →
  (∀ k s, a ≤ k < a + n → P k s →
          match body k s with Done s' => P (S k) s' | Stop f => F f end) →
  match for_each (seq a n) body s with
  | Done s' => P (a + n) s'
  | Stop f => F f
  end.
Proof.
  revert a s. induction n as [|n IH]; intros a s Hs Hbody; simpl.
  - by rewrite Nat.add_0_r.
  - pose proof (Hbody a s ltac:(lia) Hs) as Ha.
    destruct (body a s) as [s'|f]; simpl; [|done].
    replace (a + S n) with (S a + n) by lia.
    apply IH; [done|]. intros k s0 Hk. apply Hbody. lia.
Qed.

(** The same with an invariant that does not depend on the counter. *)
Lemma for_each_inv {St} (P : St → Prop) (F : fault → Prop)
    (body : nat → St → outcome St) a n s :
  P s →
  (∀ k s, a ≤ k < a + n → P s →
          match body k s with Done s' => P s' | Stop f => F f end) →
  match for_each (seq a n) body s with
  | Done s' => P s'
  | Stop f => F f
  end.
Proof. intros. by apply (for_each_seq (λ _, P)). Qed.

(** ** Vectors and bit sets *)

Lemma at_Done {A} (v : list A) i x : at_ v i = Done x ↔ v !! i = Some x.
Proof. unfold at_. destruct (v !! i); split; congruence. Qed.

Lemma subscript_Done {A} (v : list A) i x : subscript v i = Done x ↔ v !! i = Some x.
Proof. unfold subscript. destruct (v !! i); split; congruence. Qed.

Lemma at_put_Done {A} (v v' : list A) i x :
  at_put v i x = Done v' ↔ i < length v ∧ v' = <[i:=x]> v.
Proof.
  unfold at_put. case_decide; split; try done.
  - by intros [= <-].
  - by intros [_ ->].
  - by intros [? _].
Qed.

Lemma store_Done {A} (v v' : list A) i x :
  store v i x = Done v' ↔ i < length v ∧ v' = <[i:=x]> v.
Proof.
  unfold store. case_decide; split; try done.
  - by intros [= <-].
  - by intros [_ ->].
  - by intros [? _].
Qed.

Lemma subscript_lt {A} (v : list A) i :
  i < length v → ∃ x, v !! i = Some x ∧ subscript v i = Done x.
Proof.
  intros [x Hx]%lookup_lt_is_Some. exists x. by rewrite subscript_Done.
Qed.

Lemma subscript_ge {A} (v : list A) i :
  length v ≤ i → subscript v i = Stop bad_subscript.
Proof. intros Hi%lookup_ge_None. unfold subscript. by rewrite Hi. Qed.

(** An iteration of [operator&=] leaves the set alone or clears bit [i]. *)
Lemma and_body_Done rhs i self self' :
  and_body rhs i self = Done self' →
  self' = self ∨ (i < length self ∧ self' = <[i:=false]> self).
Proof.
  unfold and_body. intros (a & _ & Ha)%bind_Done.
  destruct a; [|left; congruence].
  apply bind_Done in Ha as (b & _ & Hb).
  destruct b; simpl in Hb; [left; congruence|].
  apply at_put_Done in Hb. by right.
Qed.

(** [operator&=] keeps the size and never sets a bit, whatever the
    operands. *)
Lemma band_shrinks self rhs r :
  band self rhs = Done r →
  length r = length self ∧ ∀ j, r !! j = Some true → self !! j = Some true.
Proof.
  unfold band. intros Hr.
  pose proof (for_each_inv
    (λ s : bitsett,
       length s = length self ∧ ∀ j, s !! j = Some true → self !! j = Some true)
    (λ _, True) (and_body rhs) 0 (length self) self) as H.
  rewrite Hr in H. apply H; [done|]. clear.
  intros k s _ [Hlen Hsub].
  destruct (and_body rhs k s) as [s'|] eqn:Hs'; [|done].
  apply and_body_Done in Hs' as [->|[Hk ->]]; [done|].
  rewrite length_insert. split; [done|]. intros j.
  destruct (decide (k = j)) as [->|].
  - by rewrite list_lookup_insert_eq.
  - rewrite list_lookup_insert_ne by done. auto.
Qed.

(** A loop that combines bit [k] of [self] with bit [k] of [rhs] by [op],
    for [k] below the size of [self], computes [zip_with op]. *)
Lemma bitwise_loop (op : bool → bool → bool) body (self rhs : bitsett) :
  length self ≤ length rhs →
  (∀ k (s : bitsett) a b,
     s !! k = Some a → rhs !! k = Some b →
     body k s = Done (<[k:=op a b]> s)) →
  for_each (seq 0 (length self)) body self = Done (zip_with op self rhs).
Proof.
  intros Hlen Hbody.
  pose (P := λ k (s : bitsett),
       length s = length self ∧
       ∀ j, s !! j = if decide (j < k) then zip_with op self rhs !! j
                     else self !! j).
  assert (∀ k s, 0 ≤ k < 0 + length self → P k s →
            match body k s with Done s' => P (S k) s' | Stop _ => False end)
    as Hstep.
  { intros k s [_ Hk] [Hs Hj].
    destruct (lookup_lt_is_Some_2 self k) as [a Ha]; [lia|].
    destruct (lookup_lt_is_Some_2 rhs k) as [b Hb]; [lia|].
    assert (s !! k = Some a) as Hsk.
    { rewrite Hj. case_decide; [lia|done]. }
    rewrite (Hbody k s a b) by done. unfold P.
    rewrite length_insert. split; [done|]. intros j.
    destruct (decide (j = k)) as [->|Hjk].
    - rewrite list_lookup_insert_eq by lia.
      rewrite decide_True by lia.
      by rewrite lookup_zip_with, Ha, Hb.
    - rewrite list_lookup_insert_ne, Hj by done.
      repeat case_decide; done || lia. }
  pose proof (for_each_seq P (λ _, False) body 0 (length self) self) as H.
  destruct (for_each _ _ _) as [r|f].
  - f_equal. destruct H as [Hr Hj]; [done|done|].
    apply list_eq. intros j. rewrite Hj. simpl.
    case_decide as Hlt; [done|].
    rewrite (lookup_ge_None_2 self) by lia.
    symmetry. apply lookup_ge_None_2. rewrite length_zip_with. lia.
  - exfalso. by apply H.
Qed.

(** With a right operand at least as long, [operator&=] is the bitwise
    conjunction and [operator|=] the bitwise disjunction. *)
Lemma band_zip self rhs :
  length self ≤ length rhs → band self rhs = Done (zip_with andb self rhs).
Proof.
  intros Hlen. apply bitwise_loop; [done|].
  intros k s a b Ha Hb. unfold and_body, at_. rewrite Ha. simpl.
  destruct a; simpl.
  - rewrite Hb. simpl. destruct b; simpl.
    + by rewrite list_insert_id.
    + unfold at_put. rewrite decide_True; [done|]. by eapply lookup_lt_Some.
  - by rewrite list_insert_id.
Qed.

Lemma bor_zip self rhs :
  length self ≤ length rhs → bor self rhs = Done (zip_with orb self rhs).
Proof.
  intros Hlen. apply bitwise_loop; [done|].
  intros k s a b Ha Hb. unfold or_body, at_. rewrite Ha. simpl.
  destruct a; simpl.
  - by rewrite list_insert_id.
  - rewrite Hb. simpl. destruct b; simpl.
    + unfold at_put. rewrite decide_True; [done|]. by eapply lookup_lt_Some.
    + by rewrite list_insert_id.
Qed.

(** [t.reset(); t |= b] copies [b] into a [t] of the same size. *)
Lemma bor_reset t b : length t = length b → bor (reset t) b = Done b.
Proof.
  intros Hlen. unfold reset. rewrite bor_zip by (rewrite length_replicate; lia).
  f_equal. rewrite Hlen. clear. induction b as [|x b IH]; simpl; [done|].
  by rewrite IH.
Qed.

(** ** Counting bits *)

Lemma popcount_le_length (b : bitsett) : popcount b ≤ length b.
Proof.
  unfold popcount. induction b as [|[] b IH]; simpl; lia.
Qed.

(** A set included in another of the same size has no more bits, and
    fewer if it differs. *)
Lemma popcount_subset (r' r : bitsett) :
  length r' = length r →
  (∀ j, r' !! j = Some true → r !! j = Some true) →
  popcount r' ≤ popcount r ∧ (r' ≠ r → popcount r' < popcount r).
Proof.
  unfold popcount. revert r. induction r' as [|x r' IH]; intros [|y r] Hlen Hsub;
    simplify_eq/=; [by split|].
  destruct (IH r) as [IH1 IH2]; [done|intros j; apply (Hsub (S j))|].
  pose proof (Hsub 0) as H0. simpl in H0.
  destruct x, y; simpl; try (specialize (H0 eq_refl); done).
  - split; [lia|]. intros Hne. assert (r' ≠ r) as Hr by congruence.
    specialize (IH2 Hr). lia.
  - split; lia.
  - split; [lia|]. intros Hne. assert (r' ≠ r) as Hr by congruence.
    specialize (IH2 Hr). lia.
Qed.

Lemma weight_insert (doms : doms_t) n r r' :
  doms !! n = Some r →
  weight (<[n:=r']> doms) + popcount r = weight doms + popcount r'.
Proof.
  unfold weight. revert n. induction doms as [|x doms IH]; intros [|n] Hn;
    simplify_eq/=; [lia|].
  specialize (IH n Hn). lia.
Qed.

Lemma table_ok_weight n (doms : doms_t) : table_ok n doms → weight doms ≤ n * n.
Proof.
  intros [Hlen Hrows].
  assert (∀ row, row ∈ doms → popcount row ≤ n) as Hle.
  { intros row [i Hi]%list_elem_of_lookup.
    destruct (Hrows i row Hi) as [<- _]. apply popcount_le_length. }
  rewrite <- Hlen at 1. clear Hlen Hrows. unfold weight.
  induction doms as [|row doms IH]; simpl; [lia|].
  pose proof (Hle row ltac:(left)).
  assert (sum_list_with popcount doms ≤ length doms * n).
  { apply IH. intros ??. apply Hle. by right. }
  lia.
Qed.

(** ** The constructor before the loop *)

Lemma init_loop n m :
  for_each (seq 0 n) (init_body m) (replicate n []) =
  Done (replicate n (replicate m true)).
Proof.
  pose (P := λ k (s : doms_t),
          s = replicate k (replicate m true) ++ replicate (n - k) []).
  assert (∀ k s, 0 ≤ k < 0 + n → P k s →
            match init_body m k s with
            | Done s' => P (S k) s'
            | Stop _ => False
            end) as Hstep.
  { intros k s [_ Hk] ->. unfold init_body, P.
    replace (n - k) with (S (n - S k)) by lia.
    assert (length (replicate k (replicate m true)) = k) as Hlen
      by apply length_replicate.
    unfold subscript. rewrite lookup_app_r by lia. rewrite Hlen, Nat.sub_diag.
    simpl. unfold store.
    rewrite decide_True by (rewrite length_app; simpl; lia).
    rewrite <- (Nat.add_0_r k) at 1. rewrite <- Hlen at 1.
    rewrite insert_app_r. simpl.
    unfold set_all. rewrite resize_nil, length_replicate.
    by rewrite app_comm_cons, replicate_cons_app, <- app_assoc. }
  pose proof (for_each_seq P (λ _, False) (init_body m) 0 n (replicate n [])) as H.
  destruct (for_each _ _ _) as [r|f].
  - rewrite H; [| unfold P; by rewrite Nat.sub_0_r | done].
    simpl. rewrite Nat.sub_diag. simpl. by rewrite app_nil_r.
  - exfalso. apply H; [unfold P; by rewrite Nat.sub_0_r | done].
Qed.

Lemma init_doms_ok graph :
  entry graph < size graph →
  init_doms graph = Done (init_table graph, replicate (size graph) false).
Proof.
  intros He. unfold init_doms, graph_nodes, init_table. cbv zeta.
  rewrite !resize_nil, init_loop. simpl.
  set (n := size graph) in *. set (e := entry graph) in *.
  unfold subscript. rewrite lookup_replicate_2 by done. simpl.
  unfold store. rewrite decide_True by (by rewrite length_replicate). simpl.
  rewrite list_lookup_insert_eq by (by rewrite length_replicate). simpl.
  unfold set_bit, at_put, reset. rewrite !length_replicate.
  rewrite decide_True by done. simpl.
  rewrite decide_True by (by rewrite length_insert, length_replicate). simpl.
  by rewrite list_insert_insert_eq.
Qed.

Lemma init_doms_bad graph :
  size graph ≤ entry graph → init_doms graph = Stop bad_subscript.
Proof.
  intros He. unfold init_doms, graph_nodes. cbv zeta.
  rewrite !resize_nil, init_loop. simpl.
  rewrite subscript_ge; [done|]. by rewrite length_replicate.
Qed.

Lemma init_table_ok graph :
  entry graph < size graph → table_ok (size graph) (init_table graph).
Proof.
  intros He. unfold init_table.
  set (n := size graph) in *. set (e := entry graph) in *.
  split; [by rewrite length_insert, length_replicate|].
  intros node row Hrow.
  assert (node < n) as Hnode.
  { apply lookup_lt_Some in Hrow.
    by rewrite length_insert, length_replicate in Hrow. }
  destruct (decide (e = node)) as [<-|Hne].
  - rewrite list_lookup_insert_eq in Hrow by (by rewrite length_replicate).
    injection Hrow as <-. rewrite length_insert, length_replicate.
    split; [done|]. apply list_lookup_insert_eq. by rewrite length_replicate.
  - rewrite list_lookup_insert_ne in Hrow by done.
    apply lookup_replicate in Hrow as [-> _].
    rewrite length_replicate. split; [done|]. by apply lookup_replicate_2.
Qed.

(** ** One update of the fixed-point loop *)

Lemma updated_length node dn dp :
  length dn = length dp → length (updated node dn dp) = length dn.
Proof.
  intros Hlen. unfold updated. rewrite length_insert, length_zip_with. lia.
Qed.

Lemma updated_subset node dn dp j :
  dn !! node = Some true →
  updated node dn dp !! j = Some true → dn !! j = Some true.
Proof.
  intros Hown. unfold updated. destruct (decide (node = j)) as [<-|Hne]; [done|].
  rewrite list_lookup_insert_ne by done. rewrite lookup_zip_with.
  destruct (dn !! j) as [[]|]; simpl; [done| |done].
  by destruct (dp !! j).
Qed.

Lemma updated_own node dn dp :
  length dn = length dp → node < length dn →
  updated node dn dp !! node = Some true.
Proof.
  intros Hlen Hn. unfold updated. apply list_lookup_insert_eq.
  rewrite length_zip_with. lia.
Qed.

(** The loop body on a well-sized table. *)
Lemma pred_body_ok graph n node p doms t changed dn dp :
  table_ok n doms → length t = n →
  doms !! node = Some dn → doms !! pred graph node p = Some dp →
  pred_body graph node p (doms, t, changed) =
  Done (<[node := updated node dn dp]> doms, dn,
        if bitsett_ne (updated node dn dp) dn then true else changed).
Proof.
  intros [Hlen Hrows] Ht Hdn Hdp.
  destruct (Hrows _ _ Hdn) as [Hldn Hown].
  destruct (Hrows _ _ Hdp) as [Hldp _].
  pose proof (lookup_lt_Some _ _ _ Hdn) as Hnode.
  unfold pred_body.
  rewrite (proj2 (subscript_Done doms node dn) Hdn). simpl.
  rewrite bor_reset by lia. simpl.
  rewrite (proj2 (subscript_Done doms _ dp) Hdp). simpl.
  rewrite band_zip by lia. simpl.
  unfold store. rewrite decide_True by done. simpl.
  unfold subscript. rewrite list_lookup_insert_eq by done. simpl.
  unfold set_bit, at_put.
  rewrite decide_True by (rewrite length_zip_with; lia). simpl.
  rewrite decide_True by (by rewrite length_insert). simpl.
  rewrite list_lookup_insert_eq by (by rewrite length_insert). simpl.
  by rewrite list_insert_insert_eq.
Qed.

Lemma pred_body_bad graph n node p doms t changed :
  table_ok n doms → length t = n → node < n → n ≤ pred graph node p →
  pred_body graph node p (doms, t, changed) = Stop bad_subscript.
Proof.
  intros [Hlen Hrows] Ht Hnode Hp.
  destruct (subscript_lt doms node) as (dn & Hdn & Hsub); [lia|].
  destruct (Hrows _ _ Hdn) as [Hldn Hown].
  unfold pred_body. rewrite Hsub. simpl.
  rewrite bor_reset by lia. simpl.
  by rewrite subscript_ge by lia.
Qed.

Lemma updates_trans graph d0 d1 d2 :
  updates graph d0 d1 → updates graph d1 d2 → updates graph d0 d2.
Proof.
  intros H01 H12. induction H12; [done|]. by eapply updates_step.
Qed.

Lemma update_table_ok n node (doms : doms_t) dn dp :
  table_ok n doms → doms !! node = Some dn → length dp = n →
  table_ok n (<[node := updated node dn dp]> doms).
Proof.
  intros [Hlen Hrows] Hdn Hdp.
  destruct (Hrows _ _ Hdn) as [Hldn Hown].
  pose proof (lookup_lt_Some _ _ _ Hdn) as Hnode.
  split; [by rewrite length_insert|].
  intros m row. destruct (decide (node = m)) as [<-|Hne].
  - rewrite list_lookup_insert_eq by done. intros [= <-].
    rewrite updated_length by lia. split; [done|].
    apply updated_own; lia.
  - rewrite list_lookup_insert_ne by done. apply Hrows.
Qed.

Lemma updates_table_ok graph n d0 d :
  table_ok n d0 → updates graph d0 d → table_ok n d.
Proof.
  intros H0 Hu. induction Hu as [|d node p dn dp Hu IH Hne Hp Hdn Hdp]; [done|].
  apply update_table_ok; [done..|]. by destruct (proj2 IH _ _ Hdp).
Qed.

(** Updates only remove bits. *)
Lemma updates_subset graph n d0 d m i :
  table_ok n d0 → updates graph d0 d → bit d m i → bit d0 m i.
Proof.
  intros H0 Hu. revert m i.
  induction Hu as [|d node p dn dp Hu IH Hne Hp Hdn Hdp]; [done|].
  intros m i (row & Hrow & Hi). apply IH.
  pose proof (updates_table_ok _ _ _ _ H0 Hu) as [Hlen Hrows].
  destruct (decide (node = m)) as [<-|Hnm].
  - rewrite list_lookup_insert_eq in Hrow by (by eapply lookup_lt_Some).
    injection Hrow as <-. exists dn. split; [done|].
    eapply updated_subset; [|done]. by destruct (Hrows _ _ Hdn).
  - rewrite list_lookup_insert_ne in Hrow by done. by exists row.
Qed.

Lemma update_weight n node (doms : doms_t) dn dp :
  table_ok n doms → doms !! node = Some dn → length dp = n →
  weight (<[node := updated node dn dp]> doms) ≤ weight doms ∧
  (updated node dn dp ≠ dn →
   weight (<[node := updated node dn dp]> doms) < weight doms).
Proof.
  intros [Hlen Hrows] Hdn Hdp.
  destruct (Hrows _ _ Hdn) as [Hldn Hown].
  pose proof (weight_insert doms node dn (updated node dn dp) Hdn) as Hw.
  destruct (popcount_subset (updated node dn dp) dn) as [Hle Hlt].
  - apply updated_length. lia.
  - intros j. by apply updated_subset.
  - split; [lia|]. intros Hne. specialize (Hlt Hne). lia.
Qed.

Lemma updates_weight graph n d0 d :
  table_ok n d0 → updates graph d0 d → weight d ≤ weight d0.
Proof.
  intros H0 Hu. induction Hu as [|d node p dn dp Hu IH Hne Hp Hdn Hdp]; [done|].
  pose proof (updates_table_ok _ _ _ _ H0 Hu) as Hok.
  destruct (update_weight n node d dn dp) as [Hle _]; [done..| |lia].
  by destruct (proj2 Hok _ _ Hdp).
Qed.

(** ** Well-formed graphs *)

Lemma graph_ok_entry graph : graph_ok graph → entry graph < size graph.
Proof. by intros [? _]. Qed.

Lemma graph_ok_pred graph node p :
  graph_ok graph → node < size graph → p < npred graph node →
  pred graph node p < size graph.
Proof.
  intros [_ Hall] Hnode Hp. rewrite Forall_forall in Hall.
  destruct (Hall node) as [Hpreds _].
  { unfold graph_nodes. apply elem_of_seq. lia. }
  rewrite Forall_forall in Hpreds. apply Hpreds.
  unfold preds. apply list_elem_of_fmap. exists p. split; [done|].
  apply elem_of_seq. lia.
Qed.

Lemma graph_ok_succ graph node s :
  graph_ok graph → node < size graph → s < nsucc graph node →
  succ graph node s < size graph.
Proof.
  intros [_ Hall] Hnode Hs. rewrite Forall_forall in Hall.
  destruct (Hall node) as [_ Hsuccs].
  { unfold graph_nodes. apply elem_of_seq. lia. }
  rewrite Forall_forall in Hsuccs. apply Hsuccs.
  unfold succs. apply list_elem_of_fmap. exists s. split; [done|].
  apply elem_of_seq. lia.
Qed.

Lemma graph_ok_reachable graph n :
  graph_ok graph → reachable graph n → n < size graph.
Proof.
  intros Hok Hr. induction Hr as [|u v Hu IH Hv]; [by apply graph_ok_entry|].
  unfold succs in Hv. apply list_elem_of_fmap in Hv as (s & -> & Hs).
  apply elem_of_seq in Hs. apply graph_ok_succ; [done..|lia].
Qed.

(** ** The fixed-point loop *)

Lemma pred_body_outcome graph d0 node p st :
  table_ok (size graph) d0 →
  node < size graph → node ≠ entry graph → p < npred graph node →
  pass_post graph d0 st →
  match pred_body graph node p st with
  | Done st' => pass_post graph d0 st'
  | Stop f => pass_fault graph f
  end.
Proof.
  destruct st as [[d t] c]. intros H0 Hnode Hne Hp (Hu & Ht & Hw).
  simpl in Hu, Ht, Hw.
  pose proof (updates_table_ok _ _ _ _ H0 Hu) as Hok.
  pose proof Hok as [Hlen Hrows].
  destruct (lookup_lt_is_Some_2 d node) as [dn Hdn]; [lia|].
  destruct (decide (pred graph node p < size graph)) as [Hlt|Hge].
  - destruct (lookup_lt_is_Some_2 d (pred graph node p)) as [dp Hdp]; [lia|].
    rewrite (pred_body_ok graph (size graph) node p d t c dn dp) by done.
    destruct (Hrows _ _ Hdn) as [Hldn _]. destruct (Hrows _ _ Hdp) as [Hldp _].
    destruct (update_weight (size graph) node d dn dp) as [Hle Hlt']; [done..|].
    pose proof (updates_weight _ _ _ _ H0 Hu) as Hwd.
    split; [|split]; simpl.
    + by eapply updates_step.
    + done.
    + unfold bitsett_ne. case_bool_decide as Hch.
      * intros _. specialize (Hlt' Hch). lia.
      * intros Hc. specialize (Hw Hc). lia.
  - rewrite (pred_body_bad graph (size graph)) by (done || lia).
    split; [done|]. intros Hg. apply Hge. by apply graph_ok_pred.
Qed.

Lemma node_body_outcome graph d0 node st :
  table_ok (size graph) d0 → node < size graph →
  pass_post graph d0 st →
  match node_body graph node st with
  | Done st' => pass_post graph d0 st'
  | Stop f => pass_fault graph f
  end.
Proof.
  intros H0 Hnode Hst. unfold node_body. case_decide as He; [done|].
  apply for_each_inv; [done|].
  intros p st' [_ Hp] Hst'. apply pred_body_outcome; done || lia.
Qed.

Lemma pass_outcome graph d0 t0 :
  table_ok (size graph) d0 → length t0 = size graph →
  match pass graph d0 t0 with
  | Done st => pass_post graph d0 st
  | Stop f => pass_fault graph f
  end.
Proof.
  intros H0 Ht. unfold pass, graph_nodes.
  apply for_each_inv.
  - split; [apply updates_refl|]. by split.
  - intros node st [_ Hnode] Hst. apply node_body_outcome; done || lia.
Qed.

(** The loop ends in a table reached by updates, or faults on an
    ill-formed graph, or was given no more fuel than there are bits. *)
Lemma do_while_outcome fuel graph d0 t0 :
  table_ok (size graph) d0 → length t0 = size graph →
  match do_while fuel graph d0 t0 with
  | Done d => updates graph d0 d
  | Stop f => pass_fault graph f ∨ (f = no_fuel ∧ fuel ≤ weight d0)
  end.
Proof.
  revert d0 t0. induction fuel as [|fuel IH]; intros d0 t0 H0 Ht; simpl.
  { right. split; [done|lia]. }
  pose proof (pass_outcome graph d0 t0 H0 Ht) as Hpass.
  destruct (pass graph d0 t0) as [[[d t] c]|f]; simpl; [|by left].
  destruct Hpass as (Hu & Hlt & Hw). simpl in *.
  destruct c; [|done].
  specialize (Hw eq_refl).
  pose proof (IH d t (updates_table_ok _ _ _ _ H0 Hu) Hlt) as Hrec.
  destruct (do_while fuel graph d t) as [d'|f'].
  - by eapply updates_trans.
  - destruct Hrec as [Hf|[-> Hfuel]]; [by left|]. right. split; [done|lia].
Qed.

Lemma DominatorInfo_outcome fuel graph :
  match DominatorInfo fuel graph with
  | Done d => entry graph < size graph ∧ updates graph (init_table graph) d
  | Stop f => pass_fault graph f ∨ (f = no_fuel ∧ fuel ≤ size graph * size graph)
  end.
Proof.
  unfold DominatorInfo.
  destruct (decide (entry graph < size graph)) as [He|He].
  - rewrite init_doms_ok by done. simpl.
    pose proof (init_table_ok graph He) as H0.
    pose proof (do_while_outcome fuel graph (init_table graph)
                  (replicate (size graph) false) H0
                  ltac:(by rewrite length_replicate)) as H.
    destruct (do_while _ _ _ _) as [d|f]; [done|].
    destruct H as [Hf|[-> Hfuel]]; [by left|]. right. split; [done|].
    pose proof (table_ok_weight _ _ H0). lia.
  - rewrite init_doms_bad by lia. simpl. left. split; [done|].
    intros Hg. by apply He, graph_ok_entry.
Qed.

(** The result of the constructor is a well-sized table. *)
Lemma DominatorInfo_table_ok fuel graph d :
  DominatorInfo fuel graph = Done d → table_ok (size graph) d.
Proof.
  intros Hd. pose proof (DominatorInfo_outcome fuel graph) as H.
  rewrite Hd in H. destruct H as [He Hu].
  eapply updates_table_ok; [|done]. by apply init_table_ok.
Qed.

(** On a well-formed graph the constructor returns, given fuel for one
    pass per bit of the table and one more. *)
Lemma DominatorInfo_total fuel graph :
  graph_ok graph → size graph * size graph < fuel →
  ∃ d, DominatorInfo fuel graph = Done d.
Proof.
  intros Hg Hfuel. pose proof (DominatorInfo_outcome fuel graph) as H.
  destruct (DominatorInfo fuel graph) as [d|f]; [by exists d|].
  destruct H as [[_ Hbad]|[_ Hle]]; [done|lia].
Qed.

(** More fuel does not change a result. *)
Lemma do_while_fuel fuel fuel' graph doms t d :
  do_while fuel graph doms t = Done d → fuel ≤ fuel' →
  do_while fuel' graph doms t = Done d.
Proof.
  revert fuel' doms t. induction fuel as [|fuel IH]; intros fuel' doms t; [done|].
  intros Hd Hle. destruct fuel' as [|fuel']; [lia|]. simpl in *.
  destruct (pass graph doms t) as [[[d1 t1] c]|]; [|done]. simpl in *.
  destruct c; [|done]. apply IH; [done|lia].
Qed.

Lemma DominatorInfo_fuel fuel fuel' graph d :
  DominatorInfo fuel graph = Done d → fuel ≤ fuel' →
  DominatorInfo fuel' graph = Done d.
Proof.
  unfold DominatorInfo. destruct (init_doms graph) as [[d0 t0]|]; [|done].
  simpl. apply do_while_fuel.
Qed.

(** What a successful run of the loop body did. *)
Lemma pred_body_Done graph node p doms t c doms' t' c' :
  pred_body graph node p (doms, t, c) = Done (doms', t', c') →
  ∃ dn dp r,
    doms !! node = Some dn ∧ doms !! pred graph node p = Some dp ∧
    band dn dp = Done r ∧ doms' = <[node := <[node := true]> r]> doms.
Proof.
  unfold pred_body.
  intros (dn & Hdn%subscript_Done & H)%bind_Done.
  apply bind_Done in H as (t1 & _ & H).
  apply bind_Done in H as (dp & Hdp%subscript_Done & H).
  apply bind_Done in H as (r & Hr & H).
  apply bind_Done in H as (doms1 & [Hnode ->]%store_Done & H).
  apply bind_Done in H as (r1 & Hr1%subscript_Done & H).
  rewrite list_lookup_insert_eq in Hr1 by done. injection Hr1 as <-.
  apply bind_Done in H as (r2 & [_ ->]%at_put_Done & H).
  apply bind_Done in H as (doms2 & [_ ->]%store_Done & H).
  apply bind_Done in H as (r3 & _ & H).
  injection H as <- _ _. exists dn, dp, r.
  by rewrite list_insert_insert_eq.
Qed.

(** A bit that a run of the loop body leaves set was set before, or is
    the bit of [node] in the set of [node]. *)
Lemma pred_body_bits graph node p doms t c doms' t' c' n i :
  pred_body graph node p (doms, t, c) = Done (doms', t', c') →
  bit doms' n i → bit doms n i ∨ (n = node ∧ i = node).
Proof.
  intros (dn & dp & r & Hdn & Hdp & Hr & ->)%pred_body_Done (row & Hrow & Hi).
  apply band_shrinks in Hr as [Hlen Hsub].
  destruct (decide (node = n)) as [<-|Hne].
  - rewrite list_lookup_insert_eq in Hrow by (by eapply lookup_lt_Some).
    injection Hrow as <-.
    destruct (decide (node = i)) as [<-|Hni]; [by right|].
    rewrite list_lookup_insert_ne in Hi by done.
    left. exists dn. auto.
  - rewrite list_lookup_insert_ne in Hrow by done. left. by exists row.
Qed.

(** A pass leaves the set of a node without predecessors alone. *)
Lemma pass_keeps_row graph doms t doms' t' c n :
  npred graph n = 0 →
  pass graph doms t = Done (doms', t', c) → doms' !! n = doms !! n.
Proof.
  intros Hn Hpass. unfold pass, graph_nodes in Hpass.
  pose proof (for_each_inv (λ st : loop_state, st.1.1 !! n = doms !! n)
                (λ _, True) (node_body graph) 0 (size graph) (doms, t, false))
    as H.
  rewrite Hpass in H. apply H; [done|]. clear H Hpass.
  intros node st _ Hst. unfold node_body. case_decide; [done|].
  apply for_each_inv; [done|]. intros p [[d1 t1] c1] [_ Hp] Hst1.
  destruct (pred_body graph node p (d1, t1, c1)) as [[[d2 t2] c2]|] eqn:Hb;
    [|done].
  apply pred_body_Done in Hb as (dn & dp & r & _ & _ & _ & ->). simpl in *.
  rewrite list_lookup_insert_ne; [done|]. intros ->. lia.
Qed.

Lemma updates_keeps_row graph d0 d n :
  npred graph n = 0 → updates graph d0 d → d !! n = d0 !! n.
Proof.
  intros Hn Hu. induction Hu as [|d node p dn dp Hu IH Hne Hp Hdn Hdp]; [done|].
  rewrite list_lookup_insert_ne; [done|]. intros ->. lia.
Qed.

(** A bit set in every set of the table stays set in every set. *)
Lemma updates_keeps_common graph n d0 d e :
  table_ok n d0 → (∀ m, m < n → bit d0 m e) → updates graph d0 d →
  ∀ m, m < n → bit d m e.
Proof.
  intros H0 He Hu. induction Hu as [|d node p dn dp Hu IH Hne Hp Hdn Hdp]; [done|].
  intros m Hm. pose proof (updates_table_ok _ _ _ _ H0 Hu) as [Hlen Hrows].
  destruct (decide (node = m)) as [<-|Hnm].
  - exists (updated node dn dp).
    split; [apply list_lookup_insert_eq; lia|].
    pose proof (lookup_lt_Some _ _ _ Hdp) as Hpn.
    destruct (IH node Hm) as (dn' & Hdn' & Hdne).
    destruct (IH (pred graph node p) ltac:(lia)) as (dp' & Hdp' & Hdpe).
    simplify_eq.
    unfold updated. destruct (decide (node = e)) as [<-|Hn].
    + apply list_lookup_insert_eq. rewrite length_zip_with.
      destruct (Hrows _ _ Hdn), (Hrows _ _ Hdp). lia.
    + rewrite list_lookup_insert_ne by done.
      by rewrite lookup_zip_with, Hdne, Hdpe.
  - destruct (IH m Hm) as (row & Hrow & Hi). exists row.
    by rewrite list_lookup_insert_ne.
Qed.

Lemma init_table_entry_bit graph m :
  entry graph < size graph → m < size graph →
  bit (init_table graph) m (entry graph).
Proof.
  intros He Hm. unfold init_table, bit.
  destruct (decide (entry graph = m)) as [<-|Hne].
  - eexists. split.
    + apply list_lookup_insert_eq. by rewrite length_replicate.
    + apply list_lookup_insert_eq. by rewrite length_replicate.
  - exists (replicate (size graph) true).
    rewrite list_lookup_insert_ne by done. by rewrite !lookup_replicate_2.
Qed.

Lemma dominates_node_bit doms a b :
  dominates_node doms a b = Done true ↔ bit doms b a.
Proof.
  unfold dominates_node, bit, test. split.
  - intros (row & Hrow%subscript_Done & Ha%at_Done)%bind_Done. eauto.
  - intros (row & Hrow & Ha). apply bind_Done. exists row.
    by rewrite subscript_Done, at_Done.
Qed.

(** On a well-sized table the query is defined for all valid ids. *)
Lemma dominates_node_defined n doms a b :
  table_ok n doms → a < n → b < n → ∃ v, dominates_node doms a b = Done v.
Proof.
  intros [Hlen Hrows] Ha Hb.
  destruct (lookup_lt_is_Some_2 doms b) as [row Hrow]; [lia|].
  destruct (Hrows _ _ Hrow) as [Hl _].
  destruct (lookup_lt_is_Some_2 row a) as [v Hv]; [lia|].
  exists v. unfold dominates_node, test. apply bind_Done. exists row.
  by rewrite subscript_Done, at_Done.
Qed.

(** On a well-sized table every valid node dominates itself. *)
Lemma table_ok_own n doms m :
  table_ok n doms → m < n → dominates_node doms m m = Done true.
Proof.
  intros [Hlen Hrows] Hm.
  destruct (lookup_lt_is_Some_2 doms m) as [row Hrow]; [lia|].
  apply dominates_node_bit. exists row. split; [done|].
  by destruct (Hrows _ _ Hrow).
Qed.

Lemma DominatorInfo_updates fuel graph d :
  DominatorInfo fuel graph = Done d →
  entry graph < size graph ∧ updates graph (init_table graph) d.
Proof.
  intros Hd. pose proof (DominatorInfo_outcome fuel graph) as H.
  by rewrite Hd in H.
Qed.

(** ** The dominance table *)

(** C4 (self-dominance): in the table the constructor returns, every
    valid node id [n] is in its own dominator set, that is
    [dominates_node d n n] returns [true]. *)
Theorem self_dominance fuel graph d n :
  DominatorInfo fuel graph = Done d → n < size graph →
  dominates_node d n n = Done true.
Proof.
  intros Hd Hn. apply DominatorInfo_table_ok in Hd.
  by apply (table_ok_own (size graph)).
Qed.

Lemma self_dominance_witness :
  ∃ d, DominatorInfo 3 diamond = Done d ∧ dominates_node d 3 3 = Done true.
Proof.
  eexists. split; [vm_compute; reflexivity|].
  apply (self_dominance 3 diamond); [vm_compute; reflexivity|vm_compute; lia].
Defined.

(** C5 (entry dominates all reachable nodes): on a well-formed graph, in
    the table the constructor returns, the entry node is in the dominator
    set of every node that can be reached from the entry node along
    successor edges. *)
Theorem entry_dominates_reachable fuel graph d n :
  graph_ok graph → DominatorInfo fuel graph = Done d → reachable graph n →
  dominates_node d (entry graph) n = Done true.
Proof.
  intros Hg Hd Hr. apply dominates_node_bit.
  apply DominatorInfo_updates in Hd as [He Hu].
  eapply updates_keeps_common; [by apply init_table_ok| |done|].
  - intros m Hm. by apply init_table_entry_bit.
  - by apply graph_ok_reachable.
Qed.

Lemma entry_dominates_reachable_witness :
  ∃ d, DominatorInfo 3 diamond = Done d ∧ dominates_node d 0 3 = Done true.
Proof.
  eexists. split; [vm_compute; reflexivity|].
  apply (entry_dominates_reachable 3 diamond).
  - vm_compute. repeat constructor.
  - vm_compute; reflexivity.
  - apply (reachable_succ diamond 1 3).
    + apply (reachable_succ diamond 0 1); [apply (reachable_entry diamond)|].
      vm_compute. repeat constructor.
    + vm_compute. repeat constructor.
Defined.

(** C7 (nodes without predecessors): a node other than the entry that
    has no predecessor has the full set after construction: the set is
    the one the initialisation gave it, no pass changes it, and every
    valid node dominates it according to the table. *)
Theorem no_predecessor_full_set fuel graph d n :
  DominatorInfo fuel graph = Done d →
  n < size graph → n ≠ entry graph → npred graph n = 0 →
  d !! n = Some (replicate (size graph) true) ∧
  (∃ d0 t0, init_doms graph = Done (d0, t0) ∧ d !! n = d0 !! n) ∧
  (∀ doms t doms' t' c,
     pass graph doms t = Done (doms', t', c) → doms' !! n = doms !! n) ∧
  (∀ i, i < size graph → dominates_node d i n = Done true).
Proof.
  intros Hd Hn Hne Hp. apply DominatorInfo_updates in Hd as [He Hu].
  pose proof (updates_keeps_row _ _ _ n Hp Hu) as Hrow.
  assert (init_table graph !! n = Some (replicate (size graph) true)) as Hinit.
  { unfold init_table. rewrite list_lookup_insert_ne by done.
    by apply lookup_replicate_2. }
  split; [by rewrite Hrow|]. split; [|split].
  - eexists _, _. split; [by apply init_doms_ok|done].
  - intros doms t doms' t' c. by apply pass_keeps_row.
  - intros i Hi. apply dominates_node_bit. eexists. split; [by rewrite Hrow|].
    by apply lookup_replicate_2.
Qed.

Lemma no_predecessor_full_set_witness :
  ∃ d, DominatorInfo 3 stray = Done d ∧ d !! 2 = Some [true; true; true].
Proof.
  eexists. split; [vm_compute; reflexivity|].
  apply (no_predecessor_full_set 3 stray);
    [vm_compute; reflexivity|vm_compute; lia|vm_compute; lia|vm_compute; reflexivity].
Defined.

(** C6 (termination of the fixed point): a run of the loop body sets no
    bit but the bit of the node in its own set; the table the loop starts
    from is well sized with every node in its own set; a pass over such a
    table gives such a table again, in which every set is included in
    what it was, and which has fewer bits in all when [changed] is set;
    and the [do]-[while] loop has exited after at most one pass per bit of
    the table and one more. *)
Theorem fixed_point_terminates graph :
  (∀ node p doms t c doms' t' c' n i,
     pred_body graph node p (doms, t, c) = Done (doms', t', c') →
     bit doms' n i → bit doms n i ∨ (n = node ∧ i = node)) ∧
  (∀ doms t,
     init_doms graph = Done (doms, t) →
     table_ok (size graph) doms ∧ length t = size graph) ∧
  (∀ doms t doms' t' c,
     table_ok (size graph) doms → length t = size graph →
     pass graph doms t = Done (doms', t', c) →
     table_ok (size graph) doms' ∧ length t' = size graph ∧
     (∀ n i, bit doms' n i → bit doms n i) ∧
     weight doms' ≤ weight doms ∧
     (c = true → weight doms' < weight doms)) ∧
  (∀ fuel, size graph * size graph < fuel →
           DominatorInfo fuel graph ≠ Stop no_fuel).
Proof.
  split; [|split; [|split]].
  - intros *. apply pred_body_bits.
  - intros doms t Hinit.
    destruct (decide (entry graph < size graph)) as [He|He].
    + rewrite init_doms_ok in Hinit by done. injection Hinit as <- <-.
      split; [by apply init_table_ok|by rewrite length_replicate].
    + by rewrite init_doms_bad in Hinit by lia.
  - intros doms t doms' t' c Hok Ht Hpass.
    pose proof (pass_outcome graph doms t Hok Ht) as H.
    rewrite Hpass in H. destruct H as (Hu & Ht' & Hw). simpl in *.
    split; [by eapply updates_table_ok|]. split; [done|].
    split; [intros n i; by eapply updates_subset|].
    split; [by eapply updates_weight|done].
  - intros fuel Hfuel Hd. pose proof (DominatorInfo_outcome fuel graph) as H.
    rewrite Hd in H. destruct H as [[[=] _]|[_ Hle]]. lia.
Qed.

Lemma fixed_point_terminates_witness :
  DominatorInfo 17 diamond ≠ Stop no_fuel.
Proof.
  apply (proj2 (proj2 (proj2 (fixed_point_terminates diamond)))).
  vm_compute. lia.
Defined.

(** C10 (accesses in bounds): on a well-formed graph the constructor
    meets no access outside a vector, so that its only fault is want of
    fuel and it returns when given enough; the table it returns has
    [size] sets of [size] bits each; and on that table the query returns
    for all valid node ids. *)
Theorem accesses_in_bounds graph :
  graph_ok graph →
  (∀ fuel f, DominatorInfo fuel graph = Stop f → f = no_fuel) ∧
  (∀ fuel, size graph * size graph < fuel →
           ∃ d, DominatorInfo fuel graph = Done d) ∧
  (∀ fuel d,
     DominatorInfo fuel graph = Done d →
     length d = size graph ∧
     Forall (λ row : bitsett, length row = size graph) d ∧
     ∀ a b, a < size graph → b < size graph →
            ∃ v, dominates_node d a b = Done v).
Proof.
  intros Hg. split; [|split].
  - intros fuel f Hd. pose proof (DominatorInfo_outcome fuel graph) as H.
    rewrite Hd in H. by destruct H as [[_ Hbad]|[-> _]].
  - intros fuel Hfuel. by apply DominatorInfo_total.
  - intros fuel d Hd. pose proof (DominatorInfo_table_ok _ _ _ Hd) as Hok.
    split; [by destruct Hok|]. split.
    + apply Forall_forall. intros row [i Hi]%list_elem_of_lookup.
      by destruct (proj2 Hok _ _ Hi).
    + intros a b. by apply dominates_node_defined.
Qed.

Lemma accesses_in_bounds_witness :
  ∃ d, DominatorInfo 17 diamond = Done d.
Proof.
  apply (proj1 (proj2 (accesses_in_bounds diamond ltac:(vm_compute; repeat constructor)))).
  vm_compute. lia.
Defined.

(** ** Region selection *)

Lemma for_each_mono {St} (body body' : nat → St → outcome St) l s r :
  (∀ i s r, body i s = Done r → body' i s = Done r) →
  for_each l body s = Done r → for_each l body' s = Done r.
Proof.
  intros Hb. revert s. induction l as [|i l IH]; intros s; simpl; [done|].
  intros (s1 & Hs1 & Hr)%bind_Done. rewrite (Hb _ _ _ Hs1). simpl. by apply IH.
Qed.

Lemma has_true nodes n : has nodes n = true ↔ n ∈ nodes.
Proof. unfold has. by rewrite bool_decide_eq_true. Qed.

Lemma has_false nodes n : has nodes n = false ↔ n ∉ nodes.
Proof. unfold has. by rewrite bool_decide_eq_false. Qed.

Section Region.
Variable db : comments.
Variable graph : mutable_graph_t.
Variable d : doms_t.
Variable startNode : nat.

Abbreviation is_end := (is_end_node db graph).
Abbreviation dominated := (dominates_node d startNode).
Abbreviation add_nodes' := (add_nodes db graph d startNode).
Abbreviation admits := (admits db graph d startNode).
Abbreviation region := (region db graph d startNode).
Abbreviation settled := (settled db graph d startNode).

Lemma succs_lookup node k :
  k < nsucc graph node → succ graph node k ∈ succs graph node.
Proof.
  intros Hk. unfold succs. apply list_elem_of_fmap. exists k.
  split; [done|]. apply elem_of_seq. lia.
Qed.

Lemma succs_elem node v :
  v ∈ succs graph node → ∃ k, k < nsucc graph node ∧ v = succ graph node k.
Proof.
  unfold succs. intros (k & -> & Hk%elem_of_seq)%list_elem_of_fmap.
  exists k. split; [lia|done].
Qed.

(** Hoare rule of the loop over the successors of [node]: the three
    ways an iteration can go. *)
Lemma succ_loop (P : nat → list nat → Prop)
    (call : list nat → nat → outcome (list nat)) node nodes0 r :
  P 0 nodes0 →
  (∀ k nodes, k < nsucc graph node → P k nodes →
              succ graph node k ∈ nodes → P (S k) nodes) →
  (∀ k nodes, k < nsucc graph node → P k nodes →
              succ graph node k ∉ nodes →
              dominated (succ graph node k) = Done false → P (S k) nodes) →
  (∀ k nodes nodes', k < nsucc graph node → P k nodes →
              succ graph node k ∉ nodes →
              dominated (succ graph node k) = Done true →
              call nodes (succ graph node k) = Done nodes' → P (S k) nodes') →
  for_each (seq 0 (nsucc graph node)) (succ_body graph d startNode call node)
           nodes0 = Done r →
  P (nsucc graph node) r.
Proof.
  intros H0 Hseen Hskip Hcall Hr.
  pose proof (for_each_seq P (λ _, True)
                (succ_body graph d startNode call node)
                0 (nsucc graph node) nodes0 H0) as H.
  rewrite Hr in H. apply H. clear H Hr H0.
  intros k nodes [_ Hk] HP. unfold succ_body.
  destruct (has nodes (succ graph node k)) eqn:Hhas; simpl.
  { apply has_true in Hhas. by apply Hseen. }
  apply has_false in Hhas.
  destruct (dominated (succ graph node k)) as [[]|] eqn:Hdom; simpl; [| |done].
  - destruct (call nodes (succ graph node k)) as [nodes'|] eqn:Hc; [|done].
    by eapply Hcall.
  - by apply Hskip.
Qed.

(** More fuel does not change a result. *)
Lemma add_nodes_fuel fuel fuel' nodes node r :
  add_nodes' fuel nodes node = Done r → fuel ≤ fuel' →
  add_nodes' fuel' nodes node = Done r.
Proof.
  revert fuel' nodes node r.
  induction fuel as [|fuel IH]; intros fuel' nodes node r; [done|].
  intros Hr Hle. destruct fuel' as [|fuel']; [lia|]. simpl in *.
  destruct (is_end node); [done|].
  eapply for_each_mono; [|done].
  intros k s r'. unfold succ_body.
  destruct (negb _); [|done].
  destruct (dominated _) as [[]|]; simpl; [|done..].
  intros Hc. apply IH; [done|lia].
Qed.

(** Every node of the result is a node that was there before or
    satisfies [R], for any [R] that holds of the visited node, if that
    is no boundary node, and passes to admitted successors. *)
Lemma add_nodes_sound (R : nat → Prop) :
  (∀ u v, R u → v ∈ succs graph u → admits v → R v) →
  ∀ fuel nodes node r,
    add_nodes' fuel nodes node = Done r →
    (is_end node = false → R node) → Forall R nodes → Forall R r.
Proof.
  intros HR. induction fuel as [|fuel IH]; intros nodes node r; [done|].
  simpl. destruct (is_end node) eqn:Hend; [by intros [= <-]|].
  intros Hr Hnode Hnodes. specialize (Hnode eq_refl).
  apply (succ_loop (λ _ nodes, Forall R nodes)) in Hr; try done.
  - apply Forall_app. split; [done|]. by apply Forall_singleton.
  - intros k cur cur' Hk Hcur Hnew Hdom Hc.
    eapply IH; [done| |done].
    intros Hend'. eapply HR; [done|by apply succs_lookup|done].
Qed.

Lemma settled_mono cur cur' v : cur ⊆ cur' → settled cur v → settled cur' v.
Proof. intros Hsub [Hin|H]; [left; by apply Hsub|by right]. Qed.

Lemma settled_admits cur v : settled cur v → admits v → v ∈ cur.
Proof.
  intros [Hin|[Hf|[_ Hend]]] [Hdom Hnend]; [done|congruence..].
Qed.

(** The result extends the nodes given, contains the visited node
    unless that is a boundary node, and every successor of every node
    it adds has been dealt with. *)
Lemma add_nodes_closed fuel nodes node r :
  add_nodes' fuel nodes node = Done r →
  nodes ⊆ r ∧ (is_end node = false → node ∈ r) ∧
  ∀ u, u ∈ r → u ∉ nodes → ∀ v, v ∈ succs graph u → settled r v.
Proof.
  revert nodes node r.
  induction fuel as [|fuel IH]; intros nodes node r; [done|].
  simpl. destruct (is_end node) eqn:Hend.
  { intros [= <-]. split; [done|]. split; [done|]. by intros u Hu Hnu. }
  intros Hr.
  apply (succ_loop (λ k cur,
           nodes ++ [node] ⊆ cur ∧
           (∀ u, u ∈ cur → u ∉ nodes ++ [node] →
                 ∀ v, v ∈ succs graph u → settled cur v) ∧
           (∀ s, s < k → settled cur (succ graph node s)))) in Hr.
  - destruct Hr as (Hsub & Hclosed & Hsuccs).
    split; [intros x Hx; apply Hsub, elem_of_app; by left|].
    split.
    { intros _. apply Hsub, elem_of_app. right. by apply list_elem_of_singleton. }
    intros u Hu Hnu v Hv.
    destruct (decide (u = node)) as [->|Hne].
    + apply succs_elem in Hv as (k & Hk & ->). by apply Hsuccs.
    + apply (Hclosed u); [done| |done].
      rewrite elem_of_app, list_elem_of_singleton. by intros [?|?].
  - split; [done|]. split; [by intros u Hu Hnu|]. intros s Hs. lia.
  - intros k cur Hk (Hsub & Hclosed & Hsuccs) Hin.
    split; [done|]. split; [done|]. intros s Hs.
    destruct (decide (s = k)) as [->|Hne]; [by left|]. apply Hsuccs. lia.
  - intros k cur Hk (Hsub & Hclosed & Hsuccs) Hnin Hdom.
    split; [done|]. split; [done|]. intros s Hs.
    destruct (decide (s = k)) as [->|Hne]; [right; by left|].
    apply Hsuccs. lia.
  - intros k cur cur' Hk (Hsub & Hclosed & Hsuccs) Hnin Hdom Hc.
    apply IH in Hc as (Hsub' & Hin' & Hclosed').
    split; [intros x Hx; by apply Hsub', Hsub|]. split.
    + intros u Hu Hnu v Hv.
      destruct (decide (u ∈ cur)) as [Hucur|Hucur].
      * eapply settled_mono; [done|]. by apply (Hclosed u).
      * by apply (Hclosed' u).
    + intros s Hs.
      destruct (decide (s = k)) as [->|Hne].
      * destruct (is_end (succ graph node k)) eqn:Hend'.
        -- right. by right.
        -- left. by apply Hin'.
      * eapply settled_mono; [done|]. apply Hsuccs. lia.
Qed.

(** The nodes of the selected region are those of [region]. *)
Lemma select_region fuel r x :
  select fuel db graph d startNode = Done r → x ∈ r ↔ region x.
Proof.
  unfold select. intros Hr. split.
  - intros Hx. revert x Hx. apply Forall_forall.
    eapply (add_nodes_sound region); [|done| |done].
    + intros u v. apply region_succ.
    + apply region_start.
  - apply add_nodes_closed in Hr as (_ & Hstart & Hclosed).
    induction 1 as [Hend|u v Hu IH Hv Hadm]; [by apply Hstart|].
    eapply settled_admits; [|done].
    apply (Hclosed u); [done|apply not_elem_of_nil|done].
Qed.

(** Total version of the rule of the loop over the successors. *)
Lemma succ_loop_total (P : nat → list nat → Prop)
    (call : list nat → nat → outcome (list nat)) node nodes0 :
  P 0 nodes0 →
  (∀ k nodes, k < nsucc graph node → P k nodes →
     match succ_body graph d startNode call node k nodes with
     | Done nodes' => P (S k) nodes'
     | Stop _ => False
     end) →
  ∃ r, for_each (seq 0 (nsucc graph node))
                (succ_body graph d startNode call node) nodes0 = Done r ∧
       P (nsucc graph node) r.
Proof.
  intros H0 Hbody.
  pose proof (for_each_seq P (λ _, False)
                (succ_body graph d startNode call node)
                0 (nsucc graph node) nodes0 H0) as H.
  destruct (for_each _ _ _) as [r|f].
  - exists r. split; [done|]. apply H. intros k nodes [_ Hk]. by apply Hbody.
  - exfalso. apply H. intros k nodes [_ Hk]. by apply Hbody.
Qed.

(** The traversal returns when the nodes it can come across lie in a
    list [U], the dominance query is defined on them, and the fuel
    exceeds the number of nodes of [U] not yet found. *)
Lemma add_nodes_returns (U : list nat) :
  (∀ u v, u ∈ U → is_end u = false →
          u = startNode ∨ dominated u = Done true →
          v ∈ succs graph u →
          v ∈ U ∧ (v = startNode ∨ ∃ b, dominated v = Done b)) →
  ∀ fuel nodes node,
    NoDup nodes → nodes ⊆ U → node ∈ U → node ∉ nodes →
    node = startNode ∨ (startNode ∈ nodes ∧ dominated node = Done true) →
    length U < fuel + length nodes →
    ∃ r, add_nodes' fuel nodes node = Done r ∧
         NoDup r ∧ r ⊆ U ∧ nodes ⊆ r.
Proof.
  intros HU.
  assert (∀ nodes node, NoDup nodes → nodes ⊆ U → node ∈ U → node ∉ nodes →
                        NoDup (nodes ++ [node]) ∧ nodes ++ [node] ⊆ U ∧
                        length nodes < length U) as Hpush.
  { intros nodes node Hnd Hsub Hin Hnin.
    assert (NoDup (nodes ++ [node])) as Hnd'.
    { apply NoDup_app. split; [done|]. split; [|apply NoDup_singleton].
      intros x Hx ->%list_elem_of_singleton. done. }
    assert (nodes ++ [node] ⊆ U) as Hsub'.
    { intros x [Hx| ->%list_elem_of_singleton]%elem_of_app; [by apply Hsub|done]. }
    split; [done|]. split; [done|].
    pose proof (submseteq_length _ _ (NoDup_submseteq _ _ Hnd' Hsub')) as Hl.
    rewrite length_app in Hl. simpl in Hl. lia. }
  induction fuel as [|fuel IH]; intros nodes node Hnd Hsub Hin Hnin Hvis Hfuel.
  { destruct (Hpush nodes node) as (_ & _ & Hl); [done..|]. lia. }
  simpl. destruct (is_end node) eqn:Hend; [by exists nodes|].
  destruct (Hpush nodes node) as (Hnd1 & Hsub1 & Hl); [done..|].
  assert (startNode ∈ nodes ++ [node]) as Hstart.
  { apply elem_of_app. destruct Hvis as [->|[? _]]; [right|by left].
    by apply list_elem_of_singleton. }
  assert (node = startNode ∨ dominated node = Done true) as Hvis'.
  { destruct Hvis as [?|[_ ?]]; [by left|by right]. }
  destruct (succ_loop_total
              (λ _ cur, NoDup cur ∧ cur ⊆ U ∧ nodes ++ [node] ⊆ cur)
              (add_nodes' fuel) node (nodes ++ [node])) as (r & Hr & HP).
  - done.
  - intros k cur Hk (Hndc & Hsubc & Hext). unfold succ_body.
    destruct (has cur (succ graph node k)) eqn:Hhas; simpl; [done|].
    apply has_false in Hhas.
    destruct (HU node (succ graph node k)) as [HvU Hdef];
      [done..|by apply succs_lookup|].
    destruct Hdef as [Heq|[b Hb]].
    { exfalso. apply Hhas. rewrite Heq. by apply Hext. }
    rewrite Hb. simpl. destruct b; [|done].
    destruct (IH cur (succ graph node k)) as (r & Hr & Hndr & Hsubr & Hextr);
      [done..| | |].
    + right. split; [by apply Hext|done].
    + pose proof (submseteq_length _ _ (NoDup_submseteq _ _ Hnd1 Hext)) as Hl'.
      rewrite length_app in Hl'. simpl in Hl'. lia.
    + rewrite Hr. split; [done|]. split; [done|].
      intros x Hx. by apply Hextr, Hext.
  - exists r. split; [done|]. destruct HP as (Hndr & Hsubr & Hextr).
    split; [done|]. split; [done|].
    intros x Hx. apply Hextr, elem_of_app. by left.
Qed.
End Region.

(** ** The boundary queries of a traversal *)

Lemma for_each_sim {S1 S2} (rel : S1 → S2 → Prop)
    (body1 : nat → S1 → outcome S1) (body2 : nat → S2 → outcome S2) l s1 s2 :
  rel s1 s2 →
  (∀ i s1 s2, rel s1 s2 →
     match body1 i s1 with
     | Done s1' => ∃ s2', body2 i s2 = Done s2' ∧ rel s1' s2'
     | Stop f => body2 i s2 = Stop f
     end) →
  match for_each l body1 s1 with
  | Done s1' => ∃ s2', for_each l body2 s2 = Done s2' ∧ rel s1' s2'
  | Stop f => for_each l body2 s2 = Stop f
  end.
Proof.
  intros Hrel Hbody. revert s1 s2 Hrel.
  induction l as [|i l IH]; intros s1 s2 Hrel; simpl; [by exists s2|].
  pose proof (Hbody i s1 s2 Hrel) as Hi.
  destruct (body1 i s1) as [s1'|f]; simpl.
  - destruct Hi as (s2' & -> & Hrel'). simpl. by apply IH.
  - by rewrite Hi.
Qed.

Section QueryLog.
Variable db : comments.
Variable graph : mutable_graph_t.
Variable d : doms_t.
Variable startNode : nat.

Abbreviation is_end := (is_end_node db graph).
Abbreviation passed := (passed db graph).

(** Dropping the log gives [add_nodes]. *)
Lemma add_nodes_log_erase fuel nodes queries node :
  match add_nodes_log db graph d startNode fuel (nodes, queries) node with
  | Done st => add_nodes db graph d startNode fuel nodes node = Done st.1
  | Stop f => add_nodes db graph d startNode fuel nodes node = Stop f
  end.
Proof.
  revert nodes queries node.
  induction fuel as [|fuel IH]; intros nodes queries node; simpl; [done|].
  destruct (is_end node); [done|].
  pose proof (for_each_sim (λ (st : list nat * list nat) cur, st.1 = cur)
    (succ_body_log graph d startNode
                   (add_nodes_log db graph d startNode fuel) node)
    (succ_body graph d startNode (add_nodes db graph d startNode fuel) node)
    (seq 0 (nsucc graph node))
    (nodes ++ [node], queries ++ [node]) (nodes ++ [node]) eq_refl) as H.
  destruct (for_each _ _ (_, _)) as [st|f].
  - destruct H as (cur & -> & <-); [|done].
    intros k [cur1 q1] cur2 Hrel. simpl in Hrel. subst cur2.
    unfold succ_body_log, succ_body. simpl.
    destruct (negb _); [|by eexists].
    destruct (dominates_node d startNode _) as [[]|]; simpl; [|by eexists|done].
    specialize (IH cur1 q1 (succ graph node k)).
    destruct (add_nodes_log _ _ _ _ _ _ _); [by eexists|done].
  - apply H.
    intros k [cur1 q1] cur2 Hrel. simpl in Hrel. subst cur2.
    unfold succ_body_log, succ_body. simpl.
    destruct (negb _); [|by eexists].
    destruct (dominates_node d startNode _) as [[]|]; simpl; [|by eexists|done].
    specialize (IH cur1 q1 (succ graph node k)).
    destruct (add_nodes_log _ _ _ _ _ _ _); [by eexists|done].
Qed.

(** The nodes found are the queries answered [false], in the order of
    the queries, each of them once. *)
Lemma add_nodes_log_passed fuel st node st' :
  add_nodes_log db graph d startNode fuel st node = Done st' →
  passed st.2 = st.1 → NoDup st.1 → node ∉ st.1 →
  passed st'.2 = st'.1 ∧ NoDup st'.1.
Proof.
  revert st node st'.
  induction fuel as [|fuel IH]; intros [nodes queries] node st'; [done|].
  simpl. intros Hst Hpassed Hnd Hnin.
  destruct (is_end node) eqn:Hend.
  { injection Hst as <-. simpl. split; [|done].
    unfold passed. rewrite filter_app, filter_cons_False by congruence.
    rewrite filter_nil, app_nil_r. done. }
  pose proof (for_each_inv
    (λ st : list nat * list nat, passed st.2 = st.1 ∧ NoDup st.1) (λ _, True)
    (succ_body_log graph d startNode
                   (add_nodes_log db graph d startNode fuel) node)
    0 (nsucc graph node) (nodes ++ [node], queries ++ [node])) as H.
  rewrite Hst in H. apply H; clear H Hst.
  - simpl. split.
    + unfold passed. rewrite filter_app, filter_cons_True by done.
      rewrite filter_nil. unfold passed in Hpassed. by rewrite Hpassed.
    + apply NoDup_app. split; [done|]. split; [|apply NoDup_singleton].
      intros x Hx ->%list_elem_of_singleton. done.
  - intros k [cur q] _ [Hp Hn]. unfold succ_body_log. simpl in *.
    destruct (has cur (succ graph node k)) eqn:Hhas; simpl; [done|].
    apply has_false in Hhas.
    destruct (dominates_node d startNode _) as [[]|]; simpl; [|done..].
    destruct (add_nodes_log _ _ _ _ _ _ _) as [st1|] eqn:Hc; [|done].
    by eapply IH.
Qed.
End QueryLog.

(** ** Selection on well-formed inputs *)

(** On a well-formed graph, with a well-sized table and a valid start
    node, the selection returns on more fuel than there are nodes; its
    result is a list of valid nodes without repetition. *)
Lemma select_total fuel db graph d startNode :
  graph_ok graph → table_ok (size graph) d → startNode < size graph →
  size graph < fuel →
  ∃ r, select fuel db graph d startNode = Done r ∧
       NoDup r ∧ ∀ x, x ∈ r → x < size graph.
Proof.
  intros Hg Hd Hs Hfuel. unfold select.
  destruct (add_nodes_returns db graph d startNode (seq 0 (size graph)))
    with (fuel := fuel) (nodes := @nil nat) (node := startNode)
    as (r & Hr & Hnd & Hsub & _).
  - intros u v Hu%elem_of_seq _ _ (k & Hk & ->)%succs_elem.
    assert (succ graph u k < size graph) as Hv
      by (apply graph_ok_succ; done || lia).
    split; [apply elem_of_seq; lia|]. right.
    by apply (dominates_node_defined (size graph)).
  - apply NoDup_nil_2.
  - by intros x Hx%elem_of_nil.
  - apply elem_of_seq. lia.
  - apply not_elem_of_nil.
  - by left.
  - rewrite length_seq. simpl. lia.
  - exists r. split; [done|]. split; [done|].
    intros x Hx%Hsub%elem_of_seq. lia.
Qed.

(** ** The selected region *)

(** C2 (start on a boundary): when the start node is a boundary node the
    selection returns the empty set, for every graph, table and comment
    database. *)
Theorem boundary_start_empty fuel db graph d startNode :
  is_end_node db graph startNode = true →
  select (S fuel) db graph d startNode = Done [].
Proof. intros Hend. unfold select. simpl. by rewrite Hend. Qed.

Lemma boundary_start_empty_witness :
  select 1 (stop_at [0]) chain [] 0 = Done [].
Proof.
  apply (boundary_start_empty 0 (stop_at [0]) chain [] 0).
  vm_compute. reflexivity.
Defined.

(** C3 (region confinement): with the table the constructor built for
    the graph and a valid start node [s], every node [x] of the selected
    region satisfies [dominates_node d s x]; and on a well-formed graph
    the selection does return a region, on more fuel than there are
    nodes. *)
Theorem region_confinement fuel db graph d s :
  DominatorInfo fuel graph = Done d → s < size graph →
  (∀ fuel' r x,
     select fuel' db graph d s = Done r → x ∈ r →
     dominates_node d s x = Done true) ∧
  (graph_ok graph → ∀ fuel', size graph < fuel' →
     ∃ r, select fuel' db graph d s = Done r).
Proof.
  intros Hd Hs. apply DominatorInfo_table_ok in Hd. split.
  - intros fuel' r x Hr Hx. revert x Hx. apply Forall_forall.
    eapply (add_nodes_sound db graph d s
              (λ x, dominates_node d s x = Done true)); [|done| |done].
    + by intros u v _ _ [Hdom _].
    + intros _. by apply (table_ok_own (size graph)).
  - intros Hg fuel' Hfuel.
    destruct (select_total fuel' db graph d s) as (r & Hr & _); [done..|].
    by exists r.
Qed.

Lemma region_confinement_witness :
  ∃ d, DominatorInfo 2 diamond = Done d ∧
       select 5 no_comments diamond d 0 = Done [0; 1; 3; 2] ∧
       dominates_node d 0 3 = Done true.
Proof.
  eexists. split; [vm_compute; reflexivity|].
  split; [vm_compute; reflexivity|].
  refine (proj1 (region_confinement 2 no_comments diamond _ 0 _ _)
                5 [0; 1; 3; 2] 3 _ _).
  - vm_compute. reflexivity.
  - vm_compute. lia.
  - vm_compute. reflexivity.
  - vm_compute. repeat constructor.
Defined.

(** The chain [0 → 1 → 2 → 3] with the stop comment on node [2]. *)
Lemma chain_boundary n :
  n < size chain → is_end_node (stop_at [2]) chain n = true ↔ n = 2.
Proof.
  intros Hn. change (size chain) with 4 in Hn.
  destruct n as [|[|[|[|n]]]]; [split; (done || by vm_compute)..|lia].
Qed.

Lemma chain_table :
  DominatorInfo 2 chain =
  Done [[true; false; false; false]; [true; true; false; false];
        [true; true; true; false]; [true; true; true; true]].
Proof. vm_compute. reflexivity. Qed.

(** C1, as stated: no run on the chain [0 → 1 → 2 → 3] with boundary
    node [2] selects the set [{0, 1, 2}] from node [0]. *)
Lemma boundary_chain_counterexample :
  ¬ ∃ fuel fuel' d r,
      DominatorInfo fuel chain = Done d ∧
      select fuel' (stop_at [2]) chain d 0 = Done r ∧
      ∀ x, x ∈ r ↔ x ∈ [0; 1; 2].
Proof.
  intros (fuel & fuel' & d & r & Hd & Hr & Hset).
  apply (DominatorInfo_fuel _ (fuel + 2)) in Hd; [|lia].
  pose proof (DominatorInfo_fuel _ (fuel + 2) _ _ chain_table ltac:(lia)) as Hd'.
  rewrite Hd in Hd'. injection Hd' as ->.
  apply (add_nodes_fuel _ _ _ _ _ (fuel' + 3)) in Hr; [|lia].
  assert (select 3 (stop_at [2]) chain
            [[true; false; false; false]; [true; true; false; false];
             [true; true; true; false]; [true; true; true; true]] 0
          = Done [0; 1]) as Hr' by (vm_compute; reflexivity).
  apply (add_nodes_fuel _ _ _ _ _ (fuel' + 3)) in Hr'; [|lia].
  rewrite Hr in Hr'. injection Hr' as ->.
  assert (2 ∈ [0; 1]) as Hin by (apply Hset; repeat constructor).
  apply elem_of_cons in Hin as [?|Hin]; [done|].
  apply elem_of_cons in Hin as [?|Hin]; [done|].
  by apply elem_of_nil in Hin.
Qed.

(** C1, amended: on the chain [0 → 1 → 2 → 3] with entry node [0] and
    node [2] the only boundary node, the selection from node [0] returns
    the nodes [0] and [1]: the boundary node [2] is not added and its
    successors are not followed, so that [2] and [3] are excluded. *)
Theorem boundary_chain_region fuel fuel' :
  2 ≤ fuel → 3 ≤ fuel' →
  (∀ n, n < size chain → is_end_node (stop_at [2]) chain n = true ↔ n = 2) ∧
  ∃ d, DominatorInfo fuel chain = Done d ∧
       select fuel' (stop_at [2]) chain d 0 = Done [0; 1].
Proof.
  intros Hfuel Hfuel'. split; [apply chain_boundary|].
  eexists. split.
  - by apply (DominatorInfo_fuel 2 fuel chain _ chain_table).
  - apply (add_nodes_fuel _ _ _ _ 3); [|done]. vm_compute. reflexivity.
Qed.

Lemma boundary_chain_region_witness :
  ∃ d, DominatorInfo 2 chain = Done d ∧
       select 3 (stop_at [2]) chain d 0 = Done [0; 1].
Proof.
  apply (proj2 (boundary_chain_region 2 3 ltac:(lia) ltac:(lia))).
Defined.

(** C8, as stated: on the diamond [0 → 1, 0 → 2, 1 → 3, 2 → 3] with
    boundary node [3], the selection from node [0] asks about node [3]
    twice, once for each edge that leads to it. *)
Lemma boundary_query_counterexample :
  ∃ d, DominatorInfo 2 diamond = Done d ∧
       select_log 3 (stop_at [3]) diamond d 0 =
         Done ([0; 1; 2], [0; 1; 3; 2; 3]) ∧
       ¬ NoDup [0; 1; 3; 2; 3].
Proof.
  eexists. split; [vm_compute; reflexivity|].
  split; [vm_compute; reflexivity|].
  intros Hnd. apply NoDup_cons in Hnd as [_ Hnd].
  apply NoDup_cons in Hnd as [_ Hnd]. apply NoDup_cons in Hnd as [Hnin _].
  apply Hnin. repeat constructor.
Qed.

(** C8, amended: during one selection the boundary predicate is asked at
    most once about each node for which it answers [false]: the queries
    answered [false] are, in order, the nodes of the region, each of them
    once.  Nothing is said of boundary nodes, which are asked about on
    each visit.  The log is that of the run of [select]. *)
Theorem boundary_queries_once fuel db graph d startNode nodes queries :
  select_log fuel db graph d startNode = Done (nodes, queries) →
  select fuel db graph d startNode = Done nodes ∧
  passed db graph queries = nodes ∧
  NoDup (passed db graph queries).
Proof.
  unfold select_log, select. intros Hlog.
  pose proof (add_nodes_log_erase db graph d startNode fuel [] [] startNode)
    as Herase.
  rewrite Hlog in Herase. split; [done|].
  apply add_nodes_log_passed in Hlog as [Hp Hnd]; simpl in *.
  - by rewrite Hp.
  - done.
  - apply NoDup_nil_2.
  - apply not_elem_of_nil.
Qed.

Lemma boundary_queries_once_witness :
  passed (stop_at [3]) diamond [0; 1; 3; 2; 3] = [0; 1; 2].
Proof.
  refine (proj1 (proj2 (boundary_queries_once 3 (stop_at [3]) diamond
    [[true; false; false; false]; [true; true; false; false];
     [true; false; true; false]; [true; false; false; true]] 0
    [0; 1; 2] [0; 1; 3; 2; 3] _))).
  vm_compute. reflexivity.
Defined.

(** ** Order of the successors *)

Section SuccessorOrder.
Variable db : comments.
Variable graph graph' : mutable_graph_t.
Variable d : doms_t.
Variable startNode : nat.

(** The two graphs have the same boundary nodes, and the successors of
    a node of [graph] are successors of it in [graph']. *)
Hypothesis same_boundary :
  ∀ n, is_end_node db graph' n = is_end_node db graph n.
Hypothesis same_succs :
  ∀ n v, v ∈ succs graph n → v ∈ succs graph' n.

Lemma region_transfer x :
  region db graph d startNode x → region db graph' d startNode x.
Proof.
  induction 1 as [Hend|u v Hu IH Hv [Hdom Hend]].
  - apply region_start. by rewrite same_boundary.
  - apply (region_succ _ _ _ _ u); [done|by apply same_succs|].
    split; [done|]. by rewrite same_boundary.
Qed.
End SuccessorOrder.

(** When the selection returns a region on [graph] it returns on a graph
    that gives the successors of each node in another order. *)
Lemma select_returns_transfer fuel db graph graph' d startNode r :
  (∀ n, is_end_node db graph' n = is_end_node db graph n) →
  (∀ n v, v ∈ succs graph' n → v ∈ succs graph n) →
  select fuel db graph d startNode = Done r →
  ∃ fuel' r', select fuel' db graph' d startNode = Done r'.
Proof.
  intros Hend Hsuccs Hr.
  destruct (is_end_node db graph' startNode) eqn:Hstart.
  { exists 1, []. unfold select. simpl. by rewrite Hstart. }
  pose proof (λ x, select_region db graph d startNode fuel r x Hr) as Hregion.
  pose proof Hr as Hclosed. unfold select in Hclosed.
  apply add_nodes_closed in Hclosed as (_ & _ & Hclosed).
  set (U := r ++ (r ≫= succs graph)).
  assert (startNode ∈ r) as Hsr.
  { apply Hregion, region_start. by rewrite <- Hend. }
  destruct (add_nodes_returns db graph' d startNode U)
    with (fuel := S (length U)) (nodes := @nil nat) (node := startNode)
    as (r' & Hr' & _).
  - intros u v Hu Hnend Hvis Hv.
    assert (u ∈ r) as Hur.
    { apply elem_of_app in Hu as [Hu|Hu]; [done|]. apply Hregion.
      apply list_elem_of_bind in Hu as (w & Hu & Hw).
      destruct Hvis as [->|Hdom].
      - apply region_start. by rewrite <- Hend.
      - apply (region_succ _ _ _ _ w); [by apply Hregion|done|].
        split; [done|]. by rewrite <- Hend. }
    apply Hsuccs in Hv. split.
    + apply elem_of_app. right. apply list_elem_of_bind. by exists u.
    + destruct (Hclosed u Hur (not_elem_of_nil u) v Hv) as [Hvr|[Hf|[Ht _]]].
      * apply Hregion in Hvr. destruct Hvr as [|w v' _ _ [Hdom _]].
        -- by left.
        -- right. by exists true.
      * right. by exists false.
      * right. by exists true.
  - apply NoDup_nil_2.
  - by intros x Hx%elem_of_nil.
  - apply elem_of_app. by left.
  - apply not_elem_of_nil.
  - by left.
  - simpl. lia.
  - by exists (S (length U)), r'.
Qed.

Lemma diamond_perm n : succs diamond n ≡ₚ succs diamond' n.
Proof.
  destruct n as [|[|[|[|n]]]]; try reflexivity.
  apply perm_swap.
Qed.

(** C9 (order independence and determinism): let [graph'] give the
    successors of every node of [graph] in another order, the boundary
    nodes being the same.  If the selection on [graph] returns a region
    then the selection on [graph'], with the same table and start node,
    returns too, every region it returns has the same nodes, and every
    run on [graph] returns the same region. *)
Theorem order_independence fuel db graph graph' d startNode r :
  (∀ n, succs graph n ≡ₚ succs graph' n) →
  (∀ n, is_end_node db graph' n = is_end_node db graph n) →
  select fuel db graph d startNode = Done r →
  (∃ fuel' r', select fuel' db graph' d startNode = Done r') ∧
  (∀ fuel' r', select fuel' db graph' d startNode = Done r' →
               ∀ x, x ∈ r ↔ x ∈ r') ∧
  (∀ fuel' r', select fuel' db graph d startNode = Done r' → r' = r).
Proof.
  intros Hperm Hend Hr. split; [|split].
  - eapply select_returns_transfer; [done| |done].
    intros n v Hv. by rewrite (Hperm n).
  - intros fuel' r' Hr' x.
    rewrite (select_region _ _ _ _ _ _ x Hr), (select_region _ _ _ _ _ _ x Hr').
    split; apply region_transfer; try done.
    + intros n v Hv. by rewrite <- (Hperm n).
    + intros n v Hv. by rewrite (Hperm n).
  - intros fuel' r' Hr'. unfold select in *.
    apply (add_nodes_fuel _ _ _ _ _ (fuel + fuel')) in Hr; [|lia].
    apply (add_nodes_fuel _ _ _ _ _ (fuel + fuel')) in Hr'; [|lia].
    congruence.
Qed.

Lemma order_independence_witness :
  ∃ d, DominatorInfo 2 diamond = Done d ∧
       select 3 no_comments diamond d 0 = Done [0; 1; 3; 2] ∧
       select 3 no_comments diamond' d 0 = Done [0; 2; 3; 1] ∧
       ∀ x, x ∈ [0; 1; 3; 2] ↔ x ∈ [0; 2; 3; 1].
Proof.
  eexists. split; [vm_compute; reflexivity|].
  split; [vm_compute; reflexivity|]. split; [vm_compute; reflexivity|].
  refine (proj1 (proj2 (order_independence 3 no_comments diamond diamond'
                          [[true; false; false; false]; [true; true; false; false];
                           [true; false; true; false]; [true; false; false; true]]
                          0 [0; 1; 3; 2] diamond_perm _ _))
                3 [0; 2; 3; 1] _).
  - intros n. reflexivity.
  - vm_compute. reflexivity.
  - vm_compute. reflexivity.
Defined.

(** ** The scenarios of the specification, run on the model *)

Example chain_dominance :
  ∃ d, DominatorInfo 2 chain = Done d ∧
       dominates_node d 0 3 = Done true ∧
       dominates_node d 1 3 = Done true ∧
       dominates_node d 2 0 = Done false ∧
       select 5 no_comments chain d 0 = Done [0; 1; 2; 3].
Proof. eexists. repeat split; vm_compute; reflexivity. Qed.

Example diamond_dominance :
  ∃ d, DominatorInfo 2 diamond = Done d ∧
       dominates_node d 1 3 = Done false ∧
       dominates_node d 2 3 = Done false ∧
       dominates_node d 0 3 = Done true ∧
       select 4 no_comments diamond d 0 = Done [0; 1; 3; 2] ∧
       select 4 no_comments diamond d 1 = Done [1].
Proof. eexists. repeat split; vm_compute; reflexivity. Qed.

Example self_loop_region :
  ∃ d, DominatorInfo 2 self_loop = Done d ∧
       select 3 no_comments self_loop d 1 = Done [1; 2].
Proof. eexists. repeat split; vm_compute; reflexivity. Qed.

Example stray_table :
  DominatorInfo 2 stray =
  Done [[true; false; false]; [true; true; false]; [true; true; true]].
Proof. vm_compute. reflexivity. Qed.

(** * Further properties *)

(** ** The table is a fixed point *)

Lemma pred_body_quiet graph d0 node p st :
  table_ok (size graph) d0 →
  node < size graph → node ≠ entry graph → p < npred graph node →
  pass_post graph d0 st ∧ pass_quiet graph d0 node p st →
  match pred_body graph node p st with
  | Done st' => pass_post graph d0 st' ∧ pass_quiet graph d0 node (S p) st'
  | Stop f => True
  end.
Proof.
  destruct st as [[d t] c]. intros H0 Hnode Hne Hp [Hpost Hq].
  pose proof (pred_body_outcome graph d0 node p (d, t, c) H0 Hnode Hne Hp Hpost)
    as Hout.
  destruct Hpost as (Hu & Ht & Hw). simpl in Hu, Ht, Hw.
  pose proof (updates_table_ok _ _ _ _ H0 Hu) as Hok.
  destruct (lookup_lt_is_Some_2 d node) as [dn Hdn]; [destruct Hok; lia|].
  destruct (decide (pred graph node p < size graph)) as [Hlt|Hge].
  - destruct (lookup_lt_is_Some_2 d (pred graph node p)) as [dp Hdp];
      [destruct Hok; lia|].
    rewrite (pred_body_ok graph (size graph) node p d t c dn dp) in * by done.
    split; [done|]. unfold pass_quiet, bitsett_ne. simpl.
    case_bool_decide as Hch; [done|]. intros ->.
    destruct (Hq eq_refl) as (Hd & Hnodes & Hpreds). simpl in Hd. subst d.
    split; [rewrite Hch; by apply list_insert_id|]. split; [done|].
    intros p' Hp' _. destruct (decide (p' = p)) as [->|].
    + by exists dn, dp.
    + apply Hpreds; [lia|done].
  - by rewrite (pred_body_bad graph (size graph)) by (done || lia).
Qed.

Lemma node_body_quiet graph d0 node st :
  table_ok (size graph) d0 → node < size graph →
  pass_post graph d0 st ∧ pass_quiet graph d0 node 0 st →
  match node_body graph node st with
  | Done st' => pass_post graph d0 st' ∧ pass_quiet graph d0 (S node) 0 st'
  | Stop f => True
  end.
Proof.
  intros H0 Hnode [Hpost Hq]. unfold node_body. case_decide as He.
  - split; [done|]. intros Hc. destruct (Hq Hc) as (Hd & Hnodes & _).
    split; [done|]. split; [|intros; lia].
    intros n p Hn Hne. destruct (decide (n = node)) as [->|]; [done|].
    apply Hnodes; [lia|done].
  - pose proof (for_each_seq
      (λ j st, pass_post graph d0 st ∧ pass_quiet graph d0 node j st)
      (λ _, True) (pred_body graph node) 0 (npred graph node) st
      (conj Hpost Hq)) as H.
    destruct (for_each _ _ _) as [st'|]; [|done].
    destruct H as [Hpost' Hq'].
    { intros j st1 [_ Hj]. apply pred_body_quiet; done || lia. }
    split; [done|]. intros Hc. destruct (Hq' Hc) as (Hd & Hnodes & Hpreds).
    split; [done|]. split; [|intros; lia].
    intros n p Hn Hne Hp. destruct (decide (n = node)) as [->|].
    + by apply Hpreds.
    + apply Hnodes; [lia|done..].
Qed.

(** A pass that does not set [changed] has left the table as it was, and
    that table is a fixed point of all updates. *)
Lemma pass_fixed graph d0 t0 d t :
  table_ok (size graph) d0 → length t0 = size graph →
  pass graph d0 t0 = Done (d, t, false) → d = d0 ∧ fixed graph d0.
Proof.
  intros H0 Ht Hpass. unfold pass, graph_nodes in Hpass.
  pose proof (for_each_seq
    (λ k st, pass_post graph d0 st ∧ pass_quiet graph d0 k 0 st)
    (λ _, True) (node_body graph) 0 (size graph) (d0, t0, false)) as H.
  rewrite Hpass in H. destruct H as [_ Hq].
  - split.
    + split; [apply updates_refl|]. by split.
    + intros _. split; [done|]. split; intros; lia.
  - intros k st [_ Hk]. apply node_body_quiet; done || lia.
  - destruct (Hq eq_refl) as (Hd & Hnodes & _). split; [done|].
    intros node p Hnode. by apply Hnodes.
Qed.

Lemma do_while_fixed fuel graph d0 t0 d :
  table_ok (size graph) d0 → length t0 = size graph →
  do_while fuel graph d0 t0 = Done d → fixed graph d.
Proof.
  revert d0 t0. induction fuel as [|fuel IH]; intros d0 t0 H0 Ht; [done|].
  simpl. pose proof (pass_outcome graph d0 t0 H0 Ht) as Hpost.
  destruct (pass graph d0 t0) as [[[d1 t1] c]|] eqn:Hpass; [|done]. simpl.
  destruct c.
  - destruct Hpost as (Hu & Ht1 & _). simpl in *.
    apply IH; [by eapply updates_table_ok|done].
  - intros [= <-]. by destruct (pass_fixed _ _ _ _ _ H0 Ht Hpass) as [-> ?].
Qed.

Lemma DominatorInfo_fixed fuel graph d :
  DominatorInfo fuel graph = Done d → fixed graph d.
Proof.
  intros Hd. pose proof (DominatorInfo_updates _ _ _ Hd) as [He _].
  unfold DominatorInfo in Hd. rewrite init_doms_ok in Hd by done.
  simpl in Hd. eapply do_while_fixed; [by apply init_table_ok| |done].
  by rewrite length_replicate.
Qed.

(** ** The table and the walks of the graph *)

Lemma updates_entry_row graph d0 d :
  updates graph d0 d → d !! entry graph = d0 !! entry graph.
Proof.
  induction 1 as [|d node p dn dp Hu IH Hne Hp Hdn Hdp]; [done|].
  by rewrite list_lookup_insert_ne.
Qed.

Lemma DominatorInfo_entry_row fuel graph d :
  DominatorInfo fuel graph = Done d →
  d !! entry graph = Some (<[entry graph := true]> (replicate (size graph) false)).
Proof.
  intros [He Hu]%DominatorInfo_updates.
  rewrite (updates_entry_row _ _ _ Hu). unfold init_table.
  apply list_lookup_insert_eq. by rewrite length_replicate.
Qed.

Lemma entry_row_bit fuel graph d a :
  DominatorInfo fuel graph = Done d → bit d (entry graph) a → a = entry graph.
Proof.
  intros Hrow%DominatorInfo_entry_row (row & Hrow' & Ha). simplify_eq.
  destruct (decide (entry graph = a)) as [|Hne]; [done|].
  rewrite list_lookup_insert_ne in Ha by done.
  by apply lookup_replicate in Ha as [? _].
Qed.

(** A node of the dominator set of [n] lies on every walk to [n]. *)
Lemma table_sound fuel graph d n l a :
  DominatorInfo fuel graph = Done d →
  path_to graph n l → n < size graph → bit d n a → a ∈ l.
Proof.
  intros Hd Hpath. revert a.
  induction Hpath as [|n p l Hpath IH Hp]; intros a Hn Ha.
  - apply (entry_row_bit _ _ _ _ Hd) in Ha as ->. by left.
  - destruct (decide (n = entry graph)) as [->|Hne].
    { apply (entry_row_bit _ _ _ _ Hd) in Ha as ->. by left. }
    destruct (DominatorInfo_fixed _ _ _ Hd n p Hn Hne Hp)
      as (dn & dp & Hdn & Hdp & Hst).
    destruct Ha as (row & Hrow & Ha). simplify_eq.
    destruct (decide (n = a)) as [->|Hna]; [by left|]. right.
    pose proof (DominatorInfo_table_ok _ _ _ Hd) as [Hlen _].
    apply IH.
    + apply lookup_lt_Some in Hdp. lia.
    + exists dp. split; [done|].
      rewrite <- Hst in Ha. unfold updated in Ha.
      rewrite list_lookup_insert_ne, lookup_zip_with in Ha by done.
      by destruct (row !! a) as [[]|], (dp !! a) as [[]|].
Qed.

(** The updates keep every node that lies on all walks to [n] in the
    set of [n]. *)
Lemma updates_complete graph d :
  entry graph < size graph → updates graph (init_table graph) d →
  ∀ n a, n < size graph → a < size graph → dominator graph a n → bit d n a.
Proof.
  intros He Hu.
  pose proof (init_table_ok graph He) as H0.
  induction Hu as [|d node p dn dp Hu IH Hne Hp Hdn Hdp]; intros n a Hn Ha Hdom.
  - destruct (decide (n = entry graph)) as [->|Hn'].
    + specialize (Hdom _ (path_entry graph)).
      apply list_elem_of_singleton in Hdom as ->.
      by apply init_table_entry_bit.
    + exists (replicate (size graph) true). unfold init_table.
      rewrite list_lookup_insert_ne by done. by rewrite !lookup_replicate_2.
  - pose proof (updates_table_ok _ _ _ _ H0 Hu) as [Hlen Hrows].
    destruct (Hrows _ _ Hdn) as [Hldn _]. destruct (Hrows _ _ Hdp) as [Hldp _].
    destruct (decide (node = n)) as [->|Hnn].
    + exists (updated n dn dp). split; [apply list_lookup_insert_eq; lia|].
      destruct (decide (n = a)) as [->|Hna]; [apply updated_own; lia|].
      unfold updated. rewrite list_lookup_insert_ne, lookup_zip_with by done.
      destruct (IH n a Hn Ha Hdom) as (row & Hrow & Hbit). simplify_eq.
      destruct (IH (pred graph n p) a) as (row' & Hrow' & Hbit').
      * apply lookup_lt_Some in Hdp. lia.
      * done.
      * intros l Hl. specialize (Hdom _ (path_step graph n p l Hl Hp)).
        apply elem_of_cons in Hdom as [?|?]; [congruence|done].
      * simplify_eq. by rewrite Hbit, Hbit'.
    + destruct (IH n a Hn Ha Hdom) as (row & Hrow & Hbit). exists row.
      by rewrite list_lookup_insert_ne.
Qed.

Lemma table_complete fuel graph d n a :
  DominatorInfo fuel graph = Done d →
  n < size graph → a < size graph → dominator graph a n → bit d n a.
Proof.
  intros [He Hu]%DominatorInfo_updates. by apply updates_complete.
Qed.

(** The walk to a node of a walk is the rest of that walk. *)
Lemma path_to_suffix graph n l b :
  path_to graph n l → b ∈ l →
  ∃ l', path_to graph b l' ∧ l' `suffix_of` l ∧ (b ≠ n → length l' < length l).
Proof.
  induction 1 as [|n p l Hpath IH Hp]; intros Hb.
  - apply list_elem_of_singleton in Hb as ->.
    exists [entry graph]. split; [constructor|]. by split.
  - destruct (decide (b = n)) as [->|Hne].
    + exists (n :: l). split; [by econstructor|]. by split.
    + apply elem_of_cons in Hb as [?|Hb]; [done|].
      destruct (IH Hb) as (l' & Hl' & Hsuf & _). exists l'.
      split; [done|]. split; [by apply suffix_cons_r|].
      intros _. apply suffix_length in Hsuf. simpl. lia.
Qed.

Lemma dominator_trans graph a b c :
  dominator graph a b → dominator graph b c → dominator graph a c.
Proof.
  intros Hab Hbc l Hl.
  destruct (path_to_suffix _ _ _ b Hl (Hbc _ Hl)) as (l' & Hl' & [k ->] & _).
  apply elem_of_app. right. by apply Hab.
Qed.

Lemma dominator_antisym graph a b l :
  path_to graph b l → dominator graph a b → dominator graph b a → a = b.
Proof.
  intros Hl Hab Hba. destruct (decide (a = b)) as [|Hne]; [done|]. exfalso.
  remember (length l) as m eqn:Hm.
  assert (length l ≤ m) as Hle by lia. clear Hm.
  revert l Hl Hle. induction m as [|m IH]; intros l Hl Hle.
  { destruct Hl; simpl in Hle; lia. }
  destruct (path_to_suffix _ _ _ a Hl (Hab _ Hl)) as (la & Hla & _ & Hlen);
    specialize (Hlen Hne).
  destruct (path_to_suffix _ _ _ b Hla (Hba _ Hla)) as (lb & Hlb & _ & Hlen').
  apply (IH lb Hlb). specialize (Hlen' ltac:(congruence)). lia.
Qed.

(** ** Extra properties of the dominance table *)

(** X1 (the table is the dominance relation): in the table the
    constructor returns, [dominates_node d a n] is [true] exactly when
    [a] lies on every walk from the entry node to [n] along the
    predecessor links of the graph. *)
Theorem table_is_dominance fuel graph d a n :
  DominatorInfo fuel graph = Done d → a < size graph → n < size graph →
  dominates_node d a n = Done true ↔ dominator graph a n.
Proof.
  intros Hd Ha Hn. rewrite dominates_node_bit. split.
  - intros Hbit l Hl. by eapply table_sound.
  - by eapply table_complete.
Qed.

Lemma table_is_dominance_witness :
  dominates_node diamond_table 0 3 = Done true ↔ dominator diamond 0 3.
Proof.
  apply (table_is_dominance 2 diamond diamond_table 0 3);
    [vm_compute; reflexivity|vm_compute; lia|vm_compute; lia].
Defined.

Lemma table_dominance fuel graph d a n :
  DominatorInfo fuel graph = Done d → a < size graph → n < size graph →
  dominates_node d a n = Done true ↔ dominator graph a n.
Proof.
  intros Hd Ha Hn. rewrite dominates_node_bit. split.
  - intros Hbit l Hl. by eapply table_sound.
  - by eapply table_complete.
Qed.

(** X2 (the equation of the fixed point): for a node other than the
    entry, [a] dominates [node] according to the table exactly when [a]
    is [node] or dominates every predecessor of [node]. *)
Theorem dominance_equation fuel graph d a node :
  DominatorInfo fuel graph = Done d →
  a < size graph → node < size graph → node ≠ entry graph →
  dominates_node d a node = Done true ↔
  a = node ∨
  ∀ p, p < npred graph node → dominates_node d a (pred graph node p) = Done true.
Proof.
  intros Hd Ha Hnode Hne.
  pose proof (DominatorInfo_table_ok _ _ _ Hd) as [Hlen Hrows].
  assert (∀ p, p < npred graph node → pred graph node p < size graph) as Hpred.
  { intros p Hp.
    destruct (DominatorInfo_fixed _ _ _ Hd node p Hnode Hne Hp)
      as (dn & dp & _ & Hdp%lookup_lt_Some & _). lia. }
  split.
  - intros Hdom. destruct (decide (a = node)) as [|Hna]; [by left|]. right.
    intros p Hp. specialize (Hpred p Hp).
    apply (table_dominance _ _ _ _ _ Hd Ha Hpred).
    apply (table_dominance _ _ _ _ _ Hd Ha Hnode) in Hdom.
    intros l Hl. specialize (Hdom _ (path_step graph node p l Hl Hp)).
    apply elem_of_cons in Hdom as [?|?]; [done|done].
  - intros [->|Hall]; [by apply (table_ok_own (size graph))|].
    apply (table_dominance _ _ _ _ _ Hd Ha Hnode). intros l Hl.
    inversion Hl as [|n p l' Hl' Hp]; subst; [done|]. right.
    apply (table_dominance _ _ _ _ _ Hd Ha (Hpred p Hp)); [|done].
    by apply Hall.
Qed.

Lemma dominance_equation_witness :
  dominates_node diamond_table 0 3 = Done true ↔
  0 = 3 ∨
  ∀ p, p < npred diamond 3 → dominates_node diamond_table 0 (pred diamond 3 p) = Done true.
Proof.
  apply (dominance_equation 2 diamond diamond_table 0 3);
    [vm_compute; reflexivity|vm_compute; lia|vm_compute; lia|vm_compute; lia].
Defined.

(** X3 (the entry node): according to the table the entry node is
    dominated by itself and by no other node. *)
Theorem entry_dominated_by_itself_only fuel graph d a :
  DominatorInfo fuel graph = Done d → a < size graph →
  dominates_node d a (entry graph) = Done (bool_decide (a = entry graph)).
Proof.
  intros Hd Ha. pose proof (DominatorInfo_entry_row _ _ _ Hd) as Hrow.
  unfold dominates_node, subscript, test, at_. rewrite Hrow. simpl.
  case_bool_decide as Heq.
  - subst a. by rewrite list_lookup_insert_eq by (by rewrite length_replicate).
  - rewrite list_lookup_insert_ne by done. by rewrite lookup_replicate_2.
Qed.

Lemma entry_dominated_by_itself_only_witness :
  dominates_node diamond_table 3 (entry diamond) =
  Done (bool_decide (3 = entry diamond)).
Proof.
  apply (entry_dominated_by_itself_only 2 diamond diamond_table 3);
    [vm_compute; reflexivity|vm_compute; lia].
Defined.

(** X4 (transitivity): if the table says that [a] dominates [b] and that
    [b] dominates [c], it says that [a] dominates [c]. *)
Theorem dominance_transitive fuel graph d a b c :
  DominatorInfo fuel graph = Done d →
  a < size graph → b < size graph → c < size graph →
  dominates_node d a b = Done true → dominates_node d b c = Done true →
  dominates_node d a c = Done true.
Proof.
  intros Hd Ha Hb Hc.
  rewrite !(table_dominance _ _ _ _ _ Hd) by done. apply dominator_trans.
Qed.

Lemma dominance_transitive_witness :
  dominates_node diamond_table 0 3 = Done true.
Proof.
  apply (dominance_transitive 2 diamond diamond_table 0 0 3);
    [vm_compute; reflexivity|vm_compute; lia..|vm_compute; reflexivity
    |vm_compute; reflexivity].
Defined.

(** X5 (antisymmetry): two nodes that dominate each other according to
    the table, one of which can be reached from the entry node, are the
    same node. *)
Theorem dominance_antisymmetric fuel graph d a b l :
  DominatorInfo fuel graph = Done d →
  a < size graph → b < size graph → path_to graph b l →
  dominates_node d a b = Done true → dominates_node d b a = Done true →
  a = b.
Proof.
  intros Hd Ha Hb Hl.
  rewrite !(table_dominance _ _ _ _ _ Hd) by done.
  by apply dominator_antisym with l.
Qed.

Lemma dominance_antisymmetric_witness : 1 = 1.
Proof.
  apply (dominance_antisymmetric 2 diamond diamond_table 1 1 [1; 0]).
  - vm_compute; reflexivity.
  - vm_compute; lia.
  - vm_compute; lia.
  - apply (path_step diamond 1 0 [0]); [apply (path_entry diamond)|vm_compute; lia].
  - vm_compute; reflexivity.
  - vm_compute; reflexivity.
Defined.



(** X7 (the query outside the table): on the table the constructor
    returns, a query about a second node that is no node of the graph
    subscripts outside the table, and a query about a first node that is
    no node of the graph makes [at] throw. *)
Theorem dominates_node_invalid_ids fuel graph d :
  DominatorInfo fuel graph = Done d →
  (∀ a n, size graph ≤ n → dominates_node d a n = Stop bad_subscript) ∧
  (∀ a n, n < size graph → size graph ≤ a →
          dominates_node d a n = Stop out_of_range).
Proof.
  intros [Hlen Hrows]%DominatorInfo_table_ok. split.
  - intros a n Hn. unfold dominates_node. by rewrite subscript_ge by lia.
  - intros a n Hn Ha.
    destruct (lookup_lt_is_Some_2 d n) as [row Hrow]; [lia|].
    destruct (Hrows _ _ Hrow) as [Hl _].
    unfold dominates_node, subscript, test, at_. rewrite Hrow. simpl.
    by rewrite lookup_ge_None_2 by lia.
Qed.

Lemma dominates_node_invalid_ids_witness :
  dominates_node diamond_table 0 4 = Stop bad_subscript.
Proof.
  apply (proj1 (dominates_node_invalid_ids 2 diamond diamond_table
                  ltac:(vm_compute; reflexivity)) 0 4).
  vm_compute. lia.
Defined.

(** ** Extra properties of the selected region *)

(** The nodes given to [add_nodes] stay where they are, the visited node
    comes next. *)
Lemma add_nodes_prefix db graph d startNode fuel nodes node r :
  add_nodes db graph d startNode fuel nodes node = Done r →
  nodes `prefix_of` r ∧
  (is_end_node db graph node = false → (nodes ++ [node]) `prefix_of` r).
Proof.
  revert nodes node r. induction fuel as [|fuel IH]; intros nodes node r; [done|].
  simpl. destruct (is_end_node db graph node) eqn:Hend.
  { intros [= <-]. by split. }
  intros Hr.
  apply (succ_loop graph d startNode
           (λ _ cur, (nodes ++ [node]) `prefix_of` cur)) in Hr; try done.
  - split; [|done]. etrans; [|done]. by apply prefix_app_r.
  - intros k cur cur' Hk Hcur Hnin Hdom Hc.
    apply IH in Hc as [Hpre _]. by etrans.
Qed.

Lemma select_NoDup fuel db graph d startNode r :
  select fuel db graph d startNode = Done r → NoDup r.
Proof.
  unfold select. intros Hr.
  pose proof (add_nodes_log_erase db graph d startNode fuel [] [] startNode)
    as Herase.
  destruct (add_nodes_log _ _ _ _ _ _ _) as [st|f] eqn:Hlog;
    [|congruence].
  rewrite Hr in Herase. injection Herase as ->.
  apply add_nodes_log_passed in Hlog as [_ Hnd]; simpl; try done.
  - apply NoDup_nil_2.
  - apply not_elem_of_nil.
Qed.

(** X8 (what the region is): the nodes of the selected region are the
    start node, unless that is a boundary node, and the nodes reached
    from it along successor edges through nodes that are dominated by
    the start node according to the table and are no boundary nodes. *)
Theorem region_characterisation fuel db graph d startNode r x :
  select fuel db graph d startNode = Done r →
  x ∈ r ↔ region db graph d startNode x.
Proof.
  intros Hr. split.
  - intros Hx. by apply (select_region db graph d startNode fuel r x Hr).
  - intros Hx. by apply (select_region db graph d startNode fuel r x Hr).
Qed.

Lemma region_characterisation_witness :
  3 ∈ [0; 1; 3; 2] ↔ region no_comments diamond diamond_table 0 3.
Proof.
  apply (region_characterisation 3 no_comments diamond diamond_table 0).
  vm_compute. reflexivity.
Defined.

(** X9 (order of insertion): the selected region has no node twice, and
    it is empty or begins with the start node. *)
Theorem region_nodup_start_first fuel db graph d startNode r :
  select fuel db graph d startNode = Done r →
  NoDup r ∧
  (is_end_node db graph startNode = true → r = []) ∧
  (is_end_node db graph startNode = false → ∃ r', r = startNode :: r').
Proof.
  intros Hr. split; [by eapply select_NoDup|]. unfold select in Hr. split.
  - intros Hend. destruct fuel as [|fuel]; [done|]. simpl in Hr.
    rewrite Hend in Hr. by injection Hr.
  - intros Hend. apply add_nodes_prefix in Hr as [_ Hpre].
    destruct (Hpre Hend) as [r' ->]. by exists r'.
Qed.

Lemma region_nodup_start_first_witness :
  NoDup [0; 1; 3; 2] ∧
  (is_end_node no_comments diamond 0 = true → [0; 1; 3; 2] = []) ∧
  (is_end_node no_comments diamond 0 = false → ∃ r', [0; 1; 3; 2] = 0 :: r').
Proof.
  apply (region_nodup_start_first 3 no_comments diamond diamond_table 0).
  vm_compute. reflexivity.
Defined.

(** X10 (boundary exclusion): no boundary node is in the selected
    region. *)
Theorem region_excludes_boundary fuel db graph d startNode r x :
  select fuel db graph d startNode = Done r → x ∈ r →
  is_end_node db graph x = false.
Proof.
  intros Hr Hx. revert x Hx. apply Forall_forall.
  eapply (add_nodes_sound db graph d startNode
            (λ x, is_end_node db graph x = false)); [|done| |done].
  - by intros u v _ _ [_ Hend].
  - done.
Qed.

Lemma region_excludes_boundary_witness :
  is_end_node (stop_at [3]) diamond 2 = false.
Proof.
  apply (region_excludes_boundary 3 (stop_at [3]) diamond diamond_table 0 [0; 1; 2]).
  - vm_compute. reflexivity.
  - repeat constructor.
Defined.

(** X11 (size of the region): on a well-formed graph, with a table of
    the size of the graph and a valid start node, the selection returns
    on any fuel above the number of nodes; the region consists of nodes
    of the graph and has at most as many nodes as the graph. *)
Theorem region_bounded fuel db graph d startNode :
  graph_ok graph → table_ok (size graph) d → startNode < size graph →
  size graph < fuel →
  ∃ r, select fuel db graph d startNode = Done r ∧
       (∀ x, x ∈ r → x < size graph) ∧ length r ≤ size graph.
Proof.
  intros Hg Hd Hs Hfuel.
  destruct (select_total fuel db graph d startNode) as (r & Hr & Hnd & Hlt);
    [done..|].
  exists r. split; [done|]. split; [done|].
  assert (r ⊆ seq 0 (size graph)) as Hsub.
  { intros x Hx. apply elem_of_seq. specialize (Hlt x Hx). lia. }
  pose proof (submseteq_length _ _ (NoDup_submseteq _ _ Hnd Hsub)) as Hl.
  by rewrite length_seq in Hl.
Qed.

Lemma region_bounded_witness :
  ∃ r, select 5 no_comments diamond diamond_table 0 = Done r ∧
       (∀ x, x ∈ r → x < size diamond) ∧ length r ≤ size diamond.
Proof.
  apply (region_bounded 5 no_comments diamond diamond_table 0).
  - vm_compute. repeat constructor.
  - apply (DominatorInfo_table_ok 2 diamond). vm_compute. reflexivity.
  - vm_compute. lia.
  - vm_compute. lia.
Defined.

(** X12 (a region has one way in): with the table the constructor built
    for the graph, every walk from the entry node to a node of the
    region selected from [s] passes through [s]. *)
Theorem region_single_entry fuel fuel' db graph d s r x :
  DominatorInfo fuel graph = Done d → s < size graph →
  select fuel' db graph d s = Done r → x ∈ r →
  dominator graph s x.
Proof.
  intros Hd Hs Hr Hx.
  assert (dominates_node d s x = Done true) as Hdom.
  { revert x Hx. apply Forall_forall.
    eapply (add_nodes_sound db graph d s
              (λ x, dominates_node d s x = Done true)); [|done| |done].
    - by intros u v _ _ [Hdom _].
    - intros _. apply (table_ok_own (size graph)); [|done].
      by eapply DominatorInfo_table_ok. }
  pose proof Hdom as (row & Hrow & _)%dominates_node_bit.
  pose proof (DominatorInfo_table_ok _ _ _ Hd) as [Hlen _].
  apply lookup_lt_Some in Hrow.
  intros l Hl. eapply table_sound; [done..|lia|by apply dominates_node_bit].
Qed.

Lemma region_single_entry_witness : dominator diamond 0 3.
Proof.
  apply (region_single_entry 2 3 no_comments diamond diamond_table 0 [0; 1; 3; 2] 3).
  - vm_compute. reflexivity.
  - vm_compute. lia.
  - vm_compute. reflexivity.
  - repeat constructor.
Defined.

(** X13 (the region of the entry node): on a well-formed graph without
    boundary nodes, the region selected from the entry node with the
    table the constructor built consists of the nodes that can be
    reached from the entry node along successor edges. *)
Theorem entry_region_is_reachable fuel fuel' db graph d r x :
  graph_ok graph → (∀ n, is_end_node db graph n = false) →
  DominatorInfo fuel graph = Done d →
  select fuel' db graph d (entry graph) = Done r →
  x ∈ r ↔ reachable graph x.
Proof.
  intros Hg Hend Hd Hr.
  rewrite (select_region db graph d (entry graph) fuel' r x Hr). split.
  - induction 1 as [_|u v Hu IH Hv _]; [constructor|].
    by apply (reachable_succ graph u v).
  - induction 1 as [|u v Hu IH Hv]; [by apply region_start|].
    apply (region_succ _ _ _ _ u v); [done..|]. split; [|done].
    apply dominates_node_bit.
    apply DominatorInfo_updates in Hd as [He Hupd].
    eapply updates_keeps_common; [by apply init_table_ok| |done|].
    + intros m Hm. by apply init_table_entry_bit.
    + apply graph_ok_reachable; [done|]. by apply (reachable_succ graph u v).
Qed.

Lemma entry_region_is_reachable_witness :
  3 ∈ [0; 1; 3; 2] ↔ reachable diamond 3.
Proof.
  apply (entry_region_is_reachable 2 3 no_comments diamond diamond_table).
  - vm_compute. repeat constructor.
  - intros n. reflexivity.
  - vm_compute. reflexivity.
  - vm_compute. reflexivity.
Defined.

(** ** Extra properties of the bit sets *)

(** [bitwise_loop] for a body that is only known on the states the loop
    reaches, where bit [k] is still that of [self]. *)
Lemma bitwise_loop_on (op : bool → bool → bool) body (self rhs : bitsett) :
  length self ≤ length rhs →
  (∀ k (s : bitsett) a b,
     self !! k = Some a → s !! k = Some a → rhs !! k = Some b →
     body k s = Done (<[k:=op a b]> s)) →
  for_each (seq 0 (length self)) body self = Done (zip_with op self rhs).
Proof.
  intros Hlen Hbody.
  pose (P := λ k (s : bitsett),
       length s = length self ∧
       ∀ j, s !! j = if decide (j < k) then zip_with op self rhs !! j
                     else self !! j).
  assert (∀ k s, 0 ≤ k < 0 + length self → P k s →
            match body k s with Done s' => P (S k) s' | Stop _ => False end)
    as Hstep.
  { intros k s [_ Hk] [Hs Hj].
    destruct (lookup_lt_is_Some_2 self k) as [a Ha]; [lia|].
    destruct (lookup_lt_is_Some_2 rhs k) as [b Hb]; [lia|].
    assert (s !! k = Some a) as Hsk.
    { rewrite Hj. case_decide; [lia|done]. }
    rewrite (Hbody k s a b) by done. unfold P.
    rewrite length_insert. split; [done|]. intros j.
    destruct (decide (j = k)) as [->|Hjk].
    - rewrite list_lookup_insert_eq by lia.
      rewrite decide_True by lia.
      by rewrite lookup_zip_with, Ha, Hb.
    - rewrite list_lookup_insert_ne, Hj by done.
      repeat case_decide; done || lia. }
  pose proof (for_each_seq P (λ _, False) body 0 (length self) self) as H.
  destruct (for_each _ _ _) as [r|f].
  - f_equal. destruct H as [Hr Hj]; [done|done|].
    apply list_eq. intros j. rewrite Hj. simpl.
    case_decide as Hlt; [done|].
    rewrite (lookup_ge_None_2 self) by lia.
    symmetry. apply lookup_ge_None_2. rewrite length_zip_with. lia.
  - exfalso. by apply H.
Qed.

(** A loop whose body reads bit [k] of [rhs] when bit [k] of the set is
    [trig], and otherwise leaves the set alone, throws when the set has a
    bit [trig] where [rhs] has no bit. *)
Lemma guarded_loop_throws (trig : bool) body (self rhs : bitsett) :
  (∀ k (s : bitsett), s !! k = Some (negb trig) → body k s = Done s) →
  (∀ k (s : bitsett) b, s !! k = Some trig → rhs !! k = Some b →
                        body k s = Done (<[k:=b]> s)) →
  (∀ k (s : bitsett), s !! k = Some trig → rhs !! k = None →
                      body k s = Stop out_of_range) →
  trig ∈ drop (length rhs) self →
  for_each (seq 0 (length self)) body self = Stop out_of_range.
Proof.
  intros Hskip Hhit Hmiss [i Hi]%list_elem_of_lookup.
  rewrite lookup_drop in Hi.
  pose (P := λ k (s : bitsett),
       length s = length self ∧ (∀ j, k ≤ j → s !! j = self !! j) ∧
       ∀ j, j < k → self !! j = Some trig → j < length rhs).
  assert (P 0 self) as H0.
  { split; [done|]. split; [done|]. intros j Hj. lia. }
  assert (∀ k s, 0 ≤ k < 0 + length self → P k s →
            match body k s with
            | Done s' => P (S k) s'
            | Stop f => f = out_of_range
            end) as Hstep.
  { intros k s [_ Hk] (Hlen & Hrest & Hno).
    destruct (lookup_lt_is_Some_2 self k) as [a Ha]; [lia|].
    assert (s !! k = Some a) as Hsk by (by rewrite Hrest).
    destruct (decide (a = trig)) as [->|Hne].
    - destruct (rhs !! k) as [b|] eqn:Hb; [|by rewrite (Hmiss k s)].
      rewrite (Hhit k s b) by done. unfold P. rewrite length_insert.
      split; [done|]. split.
      + intros j Hj. rewrite list_lookup_insert_ne by lia. apply Hrest. lia.
      + intros j Hj Hjt. destruct (decide (j = k)) as [->|].
        * by eapply lookup_lt_Some.
        * apply Hno; [lia|done].
    - rewrite (Hskip k s) by (by destruct a, trig). unfold P.
      split; [done|]. split; [intros j Hj; apply Hrest; lia|].
      intros j Hj Hjt. destruct (decide (j = k)) as [->|].
      + congruence.
      + apply Hno; [lia|done]. }
  pose proof (for_each_seq P (λ f, f = out_of_range) body 0 (length self) self
                H0 Hstep) as H.
  destruct (for_each _ _ _) as [r|f]; [|by f_equal].
  destruct H as (_ & _ & Hno).
  specialize (Hno (length rhs + i) ltac:(by eapply lookup_lt_Some) Hi). lia.
Qed.

Lemma lookup_resize_in {A} (l : list A) n x k y :
  k < n → l !! k = Some y → resize n x l !! k = Some y.
Proof.
  intros Hk Hl. rewrite lookup_resize; [done..|]. by eapply lookup_lt_Some.
Qed.

Lemma not_in_drop (self : bitsett) n k v :
  v ∉ drop n self → self !! k = Some v → k < n.
Proof.
  intros Hnin Hk. destruct (decide (k < n)) as [|Hge]; [done|].
  exfalso. apply Hnin. apply list_elem_of_lookup. exists (k - n).
  rewrite lookup_drop. by replace (n + (k - n)) with k by lia.
Qed.

(** [operator|=] throws when the left set has a clear bit where the
    right set has no bit. *)
Lemma bor_throws (self rhs : bitsett) :
  false ∈ drop (length rhs) self → bor self rhs = Stop out_of_range.
Proof.
  intros Hin. apply (guarded_loop_throws false _ self rhs); [| | |done].
  - intros k s Hk. unfold or_body, at_. by rewrite Hk.
  - intros k s b Hk Hb. unfold or_body, at_. rewrite Hk. simpl. rewrite Hb.
    simpl. destruct b; simpl.
    + unfold at_put. rewrite decide_True; [done|]. by eapply lookup_lt_Some.
    + by rewrite list_insert_id.
  - intros k s Hk Hb. unfold or_body, at_. rewrite Hk. simpl. by rewrite Hb.
Qed.

(** X14 ([operator&=] on sets of any sizes): the operator throws
    [out_of_range] exactly when the left set has a set bit at an index
    where the right set has no bit; otherwise it keeps the size of the
    left set and clears the bits that are clear in the right set, bits
    beyond the right set being left alone. *)
Theorem band_any_size (self rhs : bitsett) :
  (true ∈ drop (length rhs) self → band self rhs = Stop out_of_range) ∧
  (true ∉ drop (length rhs) self →
   band self rhs = Done (zip_with andb self (resize (length self) true rhs))).
Proof.
  split.
  - intros Hin. apply (guarded_loop_throws true _ self rhs); [| | |done].
    + intros k s Hk. unfold and_body, at_. by rewrite Hk.
    + intros k s b Hk Hb. unfold and_body, at_. rewrite Hk. simpl. rewrite Hb.
      simpl. destruct b; simpl.
      * by rewrite list_insert_id.
      * unfold at_put. rewrite decide_True; [done|]. by eapply lookup_lt_Some.
    + intros k s Hk Hb. unfold and_body, at_. rewrite Hk. simpl. by rewrite Hb.
  - intros Hnin. apply bitwise_loop_on; [by rewrite length_resize|].
    intros k s a b Ha Hs Hb. unfold and_body, at_. rewrite Hs. simpl.
    destruct a; simpl; [|by rewrite list_insert_id].
    pose proof (not_in_drop _ _ _ _ Hnin Ha) as Hk.
    rewrite lookup_resize in Hb by (done || by eapply lookup_lt_Some).
    rewrite Hb. simpl. destruct b; simpl.
    + by rewrite list_insert_id.
    + unfold at_put. rewrite decide_True; [done|]. by eapply lookup_lt_Some.
Qed.

Lemma band_any_size_witness :
  band [true; false; true] [true] = Stop out_of_range.
Proof.
  apply (proj1 (band_any_size [true; false; true] [true])).
  vm_compute. repeat constructor.
Defined.

(** X15 ([operator|=] on sets of any sizes): the operator throws
    [out_of_range] exactly when the left set has a clear bit at an index
    where the right set has no bit; otherwise it keeps the size of the
    left set and sets the bits that are set in the right set. *)
Theorem bor_any_size (self rhs : bitsett) :
  (false ∈ drop (length rhs) self → bor self rhs = Stop out_of_range) ∧
  (false ∉ drop (length rhs) self →
   bor self rhs = Done (zip_with orb self (resize (length self) false rhs))).
Proof.
  split.
  - intros Hin. apply (guarded_loop_throws false _ self rhs); [| | |done].
    + intros k s Hk. unfold or_body, at_. by rewrite Hk.
    + intros k s b Hk Hb. unfold or_body, at_. rewrite Hk. simpl. rewrite Hb.
      simpl. destruct b; simpl.
      * unfold at_put. rewrite decide_True; [done|]. by eapply lookup_lt_Some.
      * by rewrite list_insert_id.
    + intros k s Hk Hb. unfold or_body, at_. rewrite Hk. simpl. by rewrite Hb.
  - intros Hnin. apply bitwise_loop_on; [by rewrite length_resize|].
    intros k s a b Ha Hs Hb. unfold or_body, at_. rewrite Hs. simpl.
    destruct a; simpl; [by rewrite list_insert_id|].
    pose proof (not_in_drop _ _ _ _ Hnin Ha) as Hk.
    rewrite lookup_resize in Hb by (done || by eapply lookup_lt_Some).
    rewrite Hb. simpl. destruct b; simpl.
    + unfold at_put. rewrite decide_True; [done|]. by eapply lookup_lt_Some.
    + by rewrite list_insert_id.
Qed.

Lemma bor_any_size_witness :
  bor [true; false] [false] = Stop out_of_range.
Proof.
  apply (proj1 (bor_any_size [true; false] [false])).
  vm_compute. repeat constructor.
Defined.

(** X16 (the copy of the loop): [t.reset(); t |= b] makes [t] the first
    [size(t)] bits of [b] when [b] is at least as long as [t], so a copy
    of [b] when the sizes are equal, and throws [out_of_range] when [b]
    is shorter. *)
Theorem reset_then_or (t b : bitsett) :
  (length t ≤ length b → bor (reset t) b = Done (take (length t) b)) ∧
  (length b < length t → bor (reset t) b = Stop out_of_range).
Proof.
  split.
  - intros Hlen. unfold reset.
    rewrite bor_zip by (by rewrite length_replicate). f_equal.
    generalize (length t) as n. clear. intros n. revert b.
    induction n as [|n IH]; intros [|x b]; simpl; [done..|]. by rewrite IH.
  - intros Hlen. apply bor_throws.
    unfold reset. apply list_elem_of_lookup. exists 0.
    rewrite lookup_drop. apply lookup_replicate_2. lia.
Qed.

Lemma reset_then_or_witness :
  bor (reset [true; true]) [false; true; true] = Done [false; true].
Proof.
  apply (proj1 (reset_then_or [true; true] [false; true; true])).
  vm_compute. lia.
Defined.

(** X17 (set and test): [set(n)] on a valid index keeps the size, makes
    [test(n)] true and leaves every other bit as it was; on an index past
    the end both [set(n)] and [test(n)] throw [out_of_range]; after
    [set()] every bit tests true and after [reset()] every bit tests
    false. *)
Theorem set_then_test (b : bitsett) (n : nat) :
  (n < length b →
   ∃ b', set_bit b n = Done b' ∧ length b' = length b ∧
         test b' n = Done true ∧ ∀ m, m ≠ n → test b' m = test b m) ∧
  (length b ≤ n →
   set_bit b n = Stop out_of_range ∧ test b n = Stop out_of_range) ∧
  (n < length b →
   test (set_all b) n = Done true ∧ test (reset b) n = Done false).
Proof.
  split; [|split].
  - intros Hn. exists (<[n:=true]> b). unfold set_bit, at_put, test, at_.
    rewrite decide_True by done. split; [done|].
    rewrite length_insert. split; [done|].
    rewrite list_lookup_insert_eq by done. split; [done|].
    intros m Hm. by rewrite list_lookup_insert_ne.
  - intros Hn. unfold set_bit, at_put, test, at_.
    rewrite decide_False by lia. by rewrite lookup_ge_None_2.
  - intros Hn. unfold test, at_, set_all, reset.
    by rewrite !lookup_replicate_2.
Qed.

Lemma set_then_test_witness :
  set_bit [false; false] 2 = Stop out_of_range ∧
  test [false; false] 2 = Stop out_of_range.
Proof.
  apply (proj1 (proj2 (set_then_test [false; false] 2))).
  vm_compute. lia.
Defined.

(** ** Extra properties of the boundary test and of run *)

(** X18 (the stop marker): [is_end_node] holds exactly when the address
    [calc_group_ea] gives for the node alone has a non-repeatable comment
    in which ["GG:stop"] occurs at some offset; repeatable comments are
    not looked at. *)
Theorem is_end_node_substring db graph node :
  is_end_node db graph node = true ↔
  ∃ cmt m, db (calc_group_ea graph [node]) false = Some cmt ∧
           substring m 7 cmt = "GG:stop"%string.
Proof.
  unfold is_end_node, search_comment, strstr. simpl.
  destruct (db (calc_group_ea graph [node]) false) as [cmt|]; split.
  - destruct (String.index 0 "GG:stop" cmt) as [m|] eqn:Hidx; [|done].
    intros _. exists cmt, m. split; [done|].
    by apply (index_correct1 0 m "GG:stop" cmt).
  - intros (cmt' & m & [= <-] & Hsub).
    destruct (String.index 0 "GG:stop" cmt) as [m'|] eqn:Hidx; [done|].
    exfalso. by apply (index_correct3 0 m "GG:stop" cmt Hidx); [|lia|].
  - done.
  - by intros (? & ? & ? & ?).
Qed.



(** What [run] has gone through when it returns [true]. *)
Lemma run_true fuel host log :
  run fuel host = Done (true, log) →
  ∃ gv graph s d nodes,
    current_viewer host = Some gv ∧ viewer_graph gv = Some graph ∧
    viewer_curnode gv = Some s ∧
    DominatorInfo fuel graph = Done d ∧
    select fuel (host_comments host) graph d s = Done nodes ∧
    getGroupText (host_comments host) (host_ask_text host) graph s ≠ ""%string ∧
    log = [msg_graph_size (size graph) (Some s);
           viewer_create_groups nodes
             (getGroupText (host_comments host) (host_ask_text host) graph s)].
Proof.
  unfold run. intros Hrun.
  destruct (current_viewer host) as [gv|] eqn:Hgv; [|done].
  destruct (viewer_graph gv) as [graph|] eqn:Hg; [|done].
  apply bind_Done in Hrun as (d & Hd & Hrun).
  destruct (viewer_curnode gv) as [s|] eqn:Hs; [|done].
  destruct (String.length _ =? 0) eqn:Hlen; [done|].
  apply bind_Done in Hrun as (nodes & Hnodes & Hrun).
  injection Hrun as <-. exists gv, graph, s, d, nodes.
  repeat split; try done.
  intros Htext. by rewrite Htext in Hlen.
Qed.



(** X20 (no label, no group): when the user cancels the prompt or leaves
    the text empty, [run] returns [false] and creates no group. *)
Theorem run_without_label fuel host b log :
  (∀ defval format,
     host_ask_text host defval format = None ∨
     host_ask_text host defval format = Some ""%string) →
  run fuel host = Done (b, log) →
  b = false ∧ ¬ creates_group log.
Proof.
  intros Hask Hrun.
  assert (∀ graph s, getGroupText (host_comments host) (host_ask_text host)
                       graph s = ""%string) as Htext.
  { intros graph s. unfold getGroupText.
    destruct (match host_comments host _ false with
              | Some cmt => Some cmt
              | None => host_comments host _ true
              end) as [c|].
    - by destruct (Hask c "Please enter group text"%string) as [-> | ->].
    - by destruct (Hask "group text"%string "Please enter group text"%string)
        as [-> | ->]. }
  unfold run in Hrun.
  assert (∀ e, e ∈ log → ∀ nodes text, e ≠ viewer_create_groups nodes text)
    as Hlog; [|split].
  - destruct (current_viewer host) as [gv|].
    + destruct (viewer_graph gv) as [graph|].
      * apply bind_Done in Hrun as (d & Hd & Hrun).
        destruct (viewer_curnode gv) as [s|].
        -- rewrite Htext in Hrun. simpl in Hrun. injection Hrun as <- <-.
           intros e He nodes text ->. by repeat apply elem_of_cons in He as [?|He];
             try by apply elem_of_nil in He.
        -- injection Hrun as <- <-.
           intros e He nodes text ->. by repeat apply elem_of_cons in He as [?|He];
             try by apply elem_of_nil in He.
      * injection Hrun as <- <-.
        intros e He nodes text ->. by repeat apply elem_of_cons in He as [?|He];
          try by apply elem_of_nil in He.
    + injection Hrun as <- <-.
      intros e He nodes text ->. by repeat apply elem_of_cons in He as [?|He];
        try by apply elem_of_nil in He.
  - destruct b; [|done].
    apply run_true in Hrun as (gv & graph & s & d & nodes & _ & _ & _ & _ & _
                               & Hne & _).
    by destruct (Hne (Htext graph s)).
  - intros (nodes & text & Hin). by apply (Hlog _ Hin nodes text).
Qed.

Lemma run_without_label_witness :
  false = false ∧ ¬ creates_group [msg_graph_size 4 (Some 1); msg_cancelling].
Proof.
  apply (run_without_label 5 cancelling_host).
  - intros defval format. by left.
  - vm_compute. reflexivity.
Defined.

(** X21 ([run] returns or faults with the constructor): on a well-formed
    graph whose selected node, if there is one, is a node of the graph,
    [run] returns on fuel above the square of the number of nodes; and
    since [run] builds the dominance table as soon as it has a graph, a
    fault of the constructor is the outcome of [run] whether or not a
    node is selected. *)
Theorem run_returns fuel host gv graph :
  current_viewer host = Some gv → viewer_graph gv = Some graph →
  (graph_ok graph →
   (∀ s, viewer_curnode gv = Some s → s < size graph) →
   S (size graph * size graph) < fuel →
   ∃ b log, run fuel host = Done (b, log)) ∧
  (∀ f, DominatorInfo fuel graph = Stop f → run fuel host = Stop f).
Proof.
  intros Hgv Hg. unfold run. rewrite Hgv, Hg. split.
  - intros Hok Hcur Hfuel.
    destruct (DominatorInfo_total fuel graph Hok ltac:(lia)) as [d Hd].
    rewrite Hd. simpl.
    destruct (viewer_curnode gv) as [s|]; [|by eexists _, _].
    destruct (String.length _ =? 0); [by eexists _, _|].
    destruct (select_total fuel (host_comments host) graph d s)
      as (r & Hr & _); [done|by eapply DominatorInfo_table_ok|by apply Hcur| |].
    + nia.
    + unfold select in Hr. rewrite Hr. simpl. by eexists _, _.
  - intros f Hd. by rewrite Hd.
Qed.

Lemma run_returns_witness :
  ∃ b log, run 18 diamond_host = Done (b, log).
Proof.
  refine (proj1 (run_returns 18 diamond_host _ diamond eq_refl eq_refl) _ _ _).
  - vm_compute. repeat constructor.
  - intros s [= <-]. vm_compute. lia.
  - vm_compute. lia.
Defined.



(** ** Extra properties of the result of the constructor *)

(** X23 (nodes no walk reaches): a node that no walk from the entry node
    reaches, whether or not it has predecessors, is dominated by every
    node of the graph according to the table. *)
Theorem unreached_node_full_set fuel graph d n a :
  DominatorInfo fuel graph = Done d →
  n < size graph → a < size graph → (∀ l, ¬ path_to graph n l) →
  dominates_node d a n = Done true.
Proof.
  intros Hd Hn Ha Hno. apply dominates_node_bit.
  eapply table_complete; [done..|]. intros l Hl. by destruct (Hno l).
Qed.

Lemma unreached_node_full_set_witness :
  dominates_node [[true; false; false]; [true; true; false]; [true; true; true]]
                 1 2 = Done true.
Proof.
  apply (unreached_node_full_set 2 stray); [vm_compute; reflexivity|
    vm_compute; lia|vm_compute; lia|].
  intros l Hl. remember 2 as n eqn:Hn.
  destruct Hl as [|n p l Hl Hp]; [discriminate Hn|].
  subst n. vm_compute in Hp. lia.
Defined.

(** X24 (the result is stable): one more pass over the table the
    constructor returned leaves it as it is and does not set [changed]. *)
Theorem result_is_stable fuel graph d t :
  DominatorInfo fuel graph = Done d → length t = size graph →
  ∃ t', pass graph d t = Done (d, t', false).
Proof.
  intros Hd Ht.
  pose proof (DominatorInfo_table_ok _ _ _ Hd) as Hok.
  pose proof (DominatorInfo_fixed _ _ _ Hd) as Hfix.
  pose (P := λ st : loop_state,
               st.1.1 = d ∧ st.2 = false ∧ length st.1.2 = size graph).
  assert (∀ node st, 0 ≤ node < 0 + size graph → P st →
            match node_body graph node st with
            | Done st' => P st'
            | Stop _ => False
            end) as Hnode.
  { intros node st [_ Hnode] HP. unfold node_body. case_decide as Hne; [done|].
    apply for_each_inv; [done|].
    intros p [[d1 t1] c1] [_ Hp] (Hd1 & Hc1 & Ht1).
    simpl in Hd1, Hc1, Ht1. subst d1 c1.
    destruct (Hfix node p Hnode Hne) as (dn & dp & Hdn & Hdp & Hst); [lia|].
    rewrite (pred_body_ok graph (size graph) node p d t1 false dn dp) by done.
    rewrite Hst. unfold P, bitsett_ne. simpl.
    rewrite bool_decide_eq_false_2 by (by intros []).
    split; [by apply list_insert_id|]. split; [done|].
    by destruct (proj2 Hok _ _ Hdn). }
  pose proof (for_each_inv P (λ _, False) (node_body graph) 0 (size graph)
                (d, t, false) ltac:(done) Hnode) as H.
  unfold pass, graph_nodes.
  destruct (for_each _ _ _) as [[[d' t'] c']|]; [|done].
  destruct H as (Hd' & Hc' & _). simpl in *. subst. by exists t'.
Qed.

Lemma result_is_stable_witness :
  ∃ t', pass diamond diamond_table [false; false; false; false] =
        Done (diamond_table, t', false).
Proof.
  apply (result_is_stable 2 diamond diamond_table);
    [vm_compute; reflexivity|vm_compute; reflexivity].
Defined.
